(** * MetaSV interval core: a shallow embedding of [metasv/sv_interval.py]

    The development follows the Python module top-down: the priority
    tables, the [SVInterval] class with its ordering and geometric
    predicates, [interval_overlaps_interval_list] and [merge_intervals],
    then [do_validation] and [fix_pos].

    Modelling conventions.
    - Python integers are [Z]; the float thresholds of [overlaps] are
      rationals ([Q]) and the products [min_fraction * length] are taken
      exactly.
    - [sources] is a Python set of tool names: a [gset string].
    - [name] defaults to [None] and is concatenated with [+] when two
      intervals are merged, which raises [TypeError] on [None]: it is an
      [option string] and merging is fallible.
    - Exceptions are values of the error monad [result]. *)

From Stdlib Require Import ZArith QArith String List Lia Bool.
From Stdlib Require Import Sorting.Sorted Sorting.Permutation.
From Stdlib Require Import Structures.OrdersEx.
From Stdlib Require Import Numbers.DecimalString.
From stdpp Require Import base gmap strings list sorting.

Set Warnings "-register-all,-clear-no-such-hyp".
Open Scope Z_scope.

(** ** The error monad *)

Inductive exn : Type := TypeError | IndexError | KeyError.

Inductive result (A : Type) : Type :=
| Ok (a : A)
| Raise (e : exn).
Arguments Ok {A} a.
Arguments Raise {A} e.

#[global] Instance result_ret : MRet result := λ A a, Ok a.

#[global] Instance result_bind : MBind result := λ A B k m,
  match m with
  | Ok a => k a
  | Raise e => Raise e
  end.

(** ** Module-level tables (lines 12-14) *)

Definition svs_of_interest : list string :=
  ["DEL"; "INS"; "DUP"; "DUP:TANDEM"; "INV"]%string.

Definition sv_sources : list string :=
  ["Pindel"; "BreakSeq"; "HaplotypeCaller"; "BreakDancer"; "CNVnator"]%string.

Definition precise_sv_sources : list string :=
  ["Pindel"; "BreakSeq"; "HaplotypeCaller"]%string.

(** [x in l] on lists of strings. *)
Definition str_in (x : string) (l : list string) : bool :=
  existsb (String.eqb x) l.
Arguments str_in : simpl never.

(** ** The class [SVInterval] (lines 32-51) *)

Inductive SVInterval : Type := mkSV {
  chrom : string;
  start : Z;
  end_ : Z;
  name : option string;
  sv_type : string;
  length : Z;
  info : option (list (string * string));
  sources : gset string;
  gt : string;
  wiggle : Z;
  sub_intervals : list SVInterval;
  is_precise : bool;
  is_validated : bool;
  validating_interval : option SVInterval;
  cipos : list string;
  ciend : list string;
  native_sv : option string
}.

(** [__init__]: every argument is stored as given; the three flags and
    [sub_intervals] start from their constants.  No argument is checked. *)
Definition __init__ (chrom : string) (start end_ : Z) (name : option string)
    (sv_type : string) (length : Z) (sources : gset string) (gt : string)
    (wiggle : Z) (info : option (list (string * string)))
    (cipos ciend : list string) (native_sv : option string) : result SVInterval :=
  Ok {| chrom := chrom; start := start; end_ := end_; name := name;
        sv_type := sv_type; length := length; info := info; sources := sources;
        gt := gt; wiggle := wiggle; sub_intervals := []; is_precise := false;
        is_validated := false; validating_interval := None;
        cipos := cipos; ciend := ciend; native_sv := native_sv |}.

(** [SVInterval()] with every default: the receiver of [set_merged]. *)
Definition SVInterval_default : SVInterval :=
  {| chrom := ""; start := 0; end_ := 0; name := None; sv_type := "";
     length := 0; info := None; sources := ∅; gt := "./1"; wiggle := 0;
     sub_intervals := []; is_precise := false; is_validated := false;
     validating_interval := None; cipos := []; ciend := [];
     native_sv := None |}.

(** [a + "," + b] on names; [None + ...] raises [TypeError]. *)
Definition concat_names (a b : option string) : result (option string) :=
  match a, b with
  | Some x, Some y => Ok (Some (x ++ "," ++ y)%string)
  | _, _ => Raise TypeError
  end.

(** [merge] (lines 53-59).  The name is concatenated after the three
    numeric fields are updated; the exception leaves the function before
    [sub_intervals] and [sources] are touched. *)
Definition merge (self interval : SVInterval) : result SVInterval :=
  n ← concat_names (name self) (name interval);
  Ok {| chrom := chrom self;
        start := Z.min (start self) (start interval - wiggle interval);
        end_ := Z.max (end_ self) (end_ interval + wiggle interval);
        name := n;
        sv_type := sv_type self;
        length := Z.max (length self) (length interval);
        info := info self;
        sources := sources self ∪ sources interval;
        gt := gt self;
        wiggle := wiggle self;
        sub_intervals := sub_intervals self ++ [interval];
        is_precise := is_precise self;
        is_validated := is_validated self;
        validating_interval := validating_interval self;
        cipos := cipos self; ciend := ciend self;
        native_sv := native_sv self |}.

(** [set_merged] (lines 61-71): fields not assigned keep the receiver's. *)
Definition set_merged (self interval1 interval2 : SVInterval) : result SVInterval :=
  n ← concat_names (name interval1) (name interval2);
  Ok {| chrom := chrom interval1;
        start := Z.min (start interval1 - wiggle interval1)
                       (start interval2 - wiggle interval2);
        end_ := Z.max (end_ interval1 + wiggle interval1)
                      (end_ interval2 + wiggle interval2);
        name := n;
        sv_type := sv_type interval1;
        length := Z.max (length interval1) (length interval2);
        info := None;
        sources := sources interval1 ∪ sources interval2;
        gt := gt interval1;
        wiggle := wiggle self;
        sub_intervals := [interval1; interval2];
        is_precise := is_precise self;
        is_validated := is_validated self;
        validating_interval := validating_interval self;
        cipos := cipos self; ciend := ciend self;
        native_sv := native_sv self |}.

(** [__lt__] (lines 73-76): chromosome names as strings, then [start],
    then [end]. *)
Definition str_ltb (a b : string) : bool :=
  match String_as_OT.compare a b with Lt => true | _ => false end.

Definition __lt__ (self other : SVInterval) : bool :=
  if negb (String.eqb (chrom self) (chrom other)) then str_ltb (chrom self) (chrom other)
  else if negb (start self =? start other) then start self <? start other
  else end_ self <? end_ other.

(** [max] of two numbers, as rationals. *)
Definition Qmaxb (a b : Q) : Q := if Qle_bool a b then b else a.

(** [overlaps] (lines 86-98).  [min_overlap_length_self] is a parameter of
    the method and is never read by its body. *)
Definition overlaps (self other : SVInterval)
    (min_fraction_self min_fraction_other : Q)
    (min_overlap_length_self min_overlap_length_other : Z) : bool :=
  if negb (String.eqb (chrom self) (chrom other)) then false
  else if Z.min (end_ self + wiggle self) (end_ other + wiggle other)
          <=? Z.max (start self - wiggle self) (start other - wiggle other)
  then false
  else
    let self_length := inject_Z (end_ self - start self + 2 * wiggle self) in
    let other_length := inject_Z (end_ other - start other + 2 * wiggle other) in
    let overlap_length :=
      Z.min (end_ self + wiggle self) (end_ other + wiggle other)
      - Z.max (start self - wiggle self) (start other - wiggle other) in
    Qle_bool (Qmaxb (min_fraction_self * self_length)
                    (min_fraction_other * other_length))
             (inject_Z overlap_length)
    && Qle_bool (Qmaxb min_fraction_self (inject_Z min_overlap_length_other))
                (inject_Z overlap_length).

(** The default thresholds of [overlaps]: [1e-9] and [1]. *)
Definition default_fraction : Q := 1 # 1000000000.

Definition overlaps_default (self other : SVInterval) : bool :=
  overlaps self other default_fraction default_fraction 1 1.

(** [is_adjacent] (lines 100-103). *)
Definition is_adjacent (self other : SVInterval) (gap : Z) : bool :=
  if negb (String.eqb (chrom self) (chrom other)) then false
  else ((start other <=? end_ self + gap) && (end_ self + gap <? end_ other))
       || ((start self <=? end_ other + gap) && (end_ other + gap <? end_ self)).

(** [get_start] and [get_end] (lines 105-115): the receiver's own bound on
    a leaf, the [min] / [max] of the children's otherwise. *)
Fixpoint get_start (self : SVInterval) : Z :=
  match sub_intervals self with
  | [] => start self
  | i :: l => fold_left Z.min (map get_start l) (get_start i)
  end.

Fixpoint get_end (self : SVInterval) : Z :=
  match sub_intervals self with
  | [] => end_ self
  | i :: l => fold_left Z.max (map get_end l) (get_end i)
  end.

(** ** Sorting and binary search, as the Python runtime does them

    [list.sort()] is a stable sort that only calls [__lt__]; on a list it
    yields what a stable insertion sort yields. *)
Fixpoint insert_sorted (x : SVInterval) (l : list SVInterval) : list SVInterval :=
  match l with
  | [] => [x]
  | y :: l' => if __lt__ y x then y :: insert_sorted x l' else x :: y :: l'
  end.

Definition sort (l : list SVInterval) : list SVInterval :=
  foldr insert_sorted [] l.

(** [bisect.bisect_left(a, x)]: the loop [while lo < hi], with the number
    of iterations bounded by [fuel]; [hi - lo] iterations always suffice. *)
Fixpoint bisect_loop (fuel : nat) (a : list SVInterval) (x : SVInterval)
    (lo hi : nat) : nat :=
  match fuel with
  | O => lo
  | S fuel' =>
      if (lo <? hi)%nat then
        let mid := ((lo + hi) / 2)%nat in
        match a !! mid with
        | Some y => if __lt__ y x then bisect_loop fuel' a x (mid + 1)%nat hi
                    else bisect_loop fuel' a x lo mid
        | None => lo
        end
      else lo
  end.

Definition bisect_left (a : list SVInterval) (x : SVInterval) : nat :=
  bisect_loop (List.length a) a x 0%nat (List.length a).

(** [interval_overlaps_interval_list] (lines 259-267). *)
Definition interval_overlaps_interval_list (interval : SVInterval)
    (interval_list : list SVInterval)
    (min_fraction_self min_fraction_other : Q) : bool :=
  let index := bisect_left interval_list interval in
  if (0 <? index)%nat
     && match interval_list !! (index - 1)%nat with
        | Some p => overlaps interval p min_fraction_self min_fraction_other 1 1
        | None => false
        end
  then true
  else if (index <? List.length interval_list)%nat
          && match interval_list !! index with
             | Some p => overlaps interval p min_fraction_self min_fraction_other 1 1
             | None => false
             end
  then true
  else false.

(** ** [merge_intervals] (lines 270-291)

    [copy.deepcopy] returns a structurally equal object, so it is the
    identity on values.  The loop carries the running cluster and the
    clusters emitted so far. *)
Fixpoint merge_loop (current_merged_interval : SVInterval)
    (rest merged_intervals : list SVInterval) : result (list SVInterval) :=
  match rest with
  | [] => Ok (merged_intervals ++ [current_merged_interval])
  | next_interval :: rest' =>
      if overlaps_default current_merged_interval next_interval
         || is_adjacent current_merged_interval next_interval 0
      then
        new ← (match sub_intervals current_merged_interval with
               | _ :: _ => merge current_merged_interval next_interval
               | [] => set_merged SVInterval_default current_merged_interval
                                  next_interval
               end);
        merge_loop new rest' merged_intervals
      else
        merge_loop next_interval rest' (merged_intervals ++ [current_merged_interval])
  end.

(** The body of [merge_intervals] after the first line. *)
Definition merge_sorted (interval_list : list SVInterval) : result (list SVInterval) :=
  match interval_list with
  | [] => Ok []
  | first :: rest =>
      merged_intervals ← merge_loop first rest [];
      Ok (sort merged_intervals)
  end.

(** [interval_list.sort()] sorts the caller's list object in place.  A run
    of [merge_intervals] therefore has two outcomes: the contents of the
    argument list when the call ends, and the returned list (or the
    exception). *)
Definition merge_intervals_run (interval_list : list SVInterval)
    : list SVInterval * result (list SVInterval) :=
  let interval_list' := sort interval_list in
  (interval_list', merge_sorted interval_list').

Definition merge_intervals (interval_list : list SVInterval) : result (list SVInterval) :=
  snd (merge_intervals_run interval_list).

(** ** Attribute assignment

    [self.f = v] on the fields that [do_validation] and [fix_pos] assign. *)
Definition set_start (self : SVInterval) (v : Z) : SVInterval :=
  mkSV (chrom self) v (end_ self) (name self) (sv_type self) (length self)
       (info self) (sources self) (gt self) (wiggle self) (sub_intervals self)
       (is_precise self) (is_validated self) (validating_interval self)
       (cipos self) (ciend self) (native_sv self).

Definition set_end (self : SVInterval) (v : Z) : SVInterval :=
  mkSV (chrom self) (start self) v (name self) (sv_type self) (length self)
       (info self) (sources self) (gt self) (wiggle self) (sub_intervals self)
       (is_precise self) (is_validated self) (validating_interval self)
       (cipos self) (ciend self) (native_sv self).

Definition set_length (self : SVInterval) (v : Z) : SVInterval :=
  mkSV (chrom self) (start self) (end_ self) (name self) (sv_type self) v
       (info self) (sources self) (gt self) (wiggle self) (sub_intervals self)
       (is_precise self) (is_validated self) (validating_interval self)
       (cipos self) (ciend self) (native_sv self).

Definition set_gt (self : SVInterval) (v : string) : SVInterval :=
  mkSV (chrom self) (start self) (end_ self) (name self) (sv_type self)
       (length self) (info self) (sources self) v (wiggle self)
       (sub_intervals self) (is_precise self) (is_validated self)
       (validating_interval self) (cipos self) (ciend self) (native_sv self).

Definition set_info (self : SVInterval) (v : option (list (string * string)))
    : SVInterval :=
  mkSV (chrom self) (start self) (end_ self) (name self) (sv_type self)
       (length self) v (sources self) (gt self) (wiggle self)
       (sub_intervals self) (is_precise self) (is_validated self)
       (validating_interval self) (cipos self) (ciend self) (native_sv self).

Definition set_is_precise (self : SVInterval) (v : bool) : SVInterval :=
  mkSV (chrom self) (start self) (end_ self) (name self) (sv_type self)
       (length self) (info self) (sources self) (gt self) (wiggle self)
       (sub_intervals self) v (is_validated self) (validating_interval self)
       (cipos self) (ciend self) (native_sv self).

Definition set_is_validated (self : SVInterval) (v : bool) : SVInterval :=
  mkSV (chrom self) (start self) (end_ self) (name self) (sv_type self)
       (length self) (info self) (sources self) (gt self) (wiggle self)
       (sub_intervals self) (is_precise self) v (validating_interval self)
       (cipos self) (ciend self) (native_sv self).

Definition set_validating_interval (self : SVInterval) (v : option SVInterval)
    : SVInterval :=
  mkSV (chrom self) (start self) (end_ self) (name self) (sv_type self)
       (length self) (info self) (sources self) (gt self) (wiggle self)
       (sub_intervals self) (is_precise self) (is_validated self) v
       (cipos self) (ciend self) (native_sv self).

Definition set_cipos (self : SVInterval) (v : list string) : SVInterval :=
  mkSV (chrom self) (start self) (end_ self) (name self) (sv_type self)
       (length self) (info self) (sources self) (gt self) (wiggle self)
       (sub_intervals self) (is_precise self) (is_validated self)
       (validating_interval self) v (ciend self) (native_sv self).

(** ** [do_validation] (lines 117-165)

    [list(s)] enumerates a set in an order the language does not fix.  The
    enumeration is a parameter, [list_of_set]; [list(s)[0]] raises
    [IndexError] on the empty set. *)
Section Validation.

Variable list_of_set : gset string → list string.

Definition first_source (interval : SVInterval) : result string :=
  match list_of_set (sources interval) with
  | [] => Raise IndexError
  | s :: _ => Ok s
  end.

(** The comprehension of line 133. *)
Fixpoint precise_children (subs : list SVInterval) : result (list SVInterval) :=
  match subs with
  | [] => Ok []
  | interval :: rest =>
      s ← first_source interval;
      tl ← precise_children rest;
      Ok (if str_in s precise_sv_sources then interval :: tl else tl)
  end.

(** [lists = {source: [] for source in sv_sources}] (line 130). *)
Definition empty_lists : gmap string (list SVInterval) :=
  list_to_map ((λ source, (source, [])) <$> sv_sources).

(** The loop of lines 135-137; [lists[k]] raises [KeyError] when [k] is
    not one of [sv_sources]. *)
Fixpoint fill_lists (subs : list SVInterval) (lists : gmap string (list SVInterval))
    : result (gmap string (list SVInterval)) :=
  match subs with
  | [] => Ok lists
  | interval :: rest =>
      s ← first_source interval;
      match lists !! s with
      | None => Raise KeyError
      | Some l => fill_lists rest (<[s := l ++ [interval]]> lists)
      end
  end.

(** The test of lines 142-144 for the single call of one tool. *)
Definition qualifies (self child : SVInterval) (precise_merged : list SVInterval)
    (overlap_ratio : Q) : bool :=
  overlaps self child overlap_ratio overlap_ratio 1 1
  || interval_overlaps_interval_list child precise_merged overlap_ratio overlap_ratio.

(** The priority loop of lines 139-148, with its [break]. *)
Fixpoint validate_loop (srcs : list string) (self : SVInterval)
    (lists : gmap string (list SVInterval)) (precise_merged : list SVInterval)
    (overlap_ratio : Q) : SVInterval :=
  match srcs with
  | [] => self
  | source :: srcs' =>
      match lists !!! source with
      | [child] =>
          if qualifies self child precise_merged overlap_ratio then
            set_is_precise
              (set_validating_interval
                 (set_is_validated self (1 <? size (sources self))%nat)
                 (Some child))
              (str_in source precise_sv_sources)
          else validate_loop srcs' self lists precise_merged overlap_ratio
      | _ => validate_loop srcs' self lists precise_merged overlap_ratio
      end
  end.

(** The fallback of lines 160-165 for a zero [length]. *)
Fixpoint length_loop (srcs : list string) (self : SVInterval)
    (lists : gmap string (list SVInterval)) : SVInterval :=
  match srcs with
  | [] => self
  | source :: srcs' =>
      if bool_decide (source ∈ sources self) then
        match lists !!! source with
        | first :: _ =>
            if 0 <? length first then set_length self (length first)
            else length_loop srcs' self lists
        | [] => length_loop srcs' self lists
        end
      else length_loop srcs' self lists
  end.

(** Lines 118-119. *)
Definition recompute_bounds (self : SVInterval) : SVInterval :=
  let self := set_start self (get_start self) in
  set_end self (get_end self).

(** Lines 150-165: the coordinates of a validated, precise cluster are
    replaced by those of its validating interval. *)
Definition adopt_validating (self : SVInterval)
    (lists : gmap string (list SVInterval)) : SVInterval :=
  if negb (is_validated self) then self
  else
    match is_precise self, validating_interval self with
    | true, Some v =>
        let self := set_start self (start v) in
        let self := set_end self (end_ v) in
        let self := set_length self (length v) in
        let self := set_gt self (gt v) in
        let self := set_info self (info v) in
        if length self =? 0 then length_loop sv_sources self lists
        else self
    | _, _ => self
    end.

Definition do_validation (self : SVInterval) (overlap_ratio : Q) : result SVInterval :=
  let self := recompute_bounds self in
  if negb (str_in (sv_type self) svs_of_interest) then Ok self
  else
    match sub_intervals self with
    | [] =>
        s ← first_source self;
        Ok (set_is_precise self (str_in s precise_sv_sources))
    | _ :: _ =>
        precise ← precise_children (sub_intervals self);
        precise_merged ← merge_intervals precise;
        lists ← fill_lists (sub_intervals self) empty_lists;
        let self := validate_loop sv_sources self lists precise_merged overlap_ratio in
        Ok (adopt_validating self lists)
    end.

(** The children that line 137 appends to [lists[source]]. *)
Definition from_source (source : string) (interval : SVInterval) : bool :=
  match first_source interval with
  | Ok s => String.eqb s source
  | Raise _ => false
  end.

Definition children_of (source : string) (subs : list SVInterval) : list SVInterval :=
  List.filter (from_source source) subs.

(** A child the partition of lines 135-137 accepts: its first source is
    one of [sv_sources]. *)
Definition known_source (i : SVInterval) : Prop :=
  ∃ s, first_source i = Ok s ∧ s ∈ sv_sources.

End Validation.

(** ** [fix_pos] (lines 167-176)

    [/] on two integers is floor division; ["%d" % n] prints [n] in
    decimal. *)
Definition format_d (n : Z) : string := NilZero.string_of_int (Z.to_int n).

Definition fix_pos (self : SVInterval) : SVInterval :=
  if String.eqb (sv_type self) "INS" then
    let mid := (start self + end_ self) / 2 in
    if negb (is_precise self) then
      let self := set_end self (start self) in
      set_cipos self ["0"%string; format_d (end_ self - start self)]
    else
      let self := set_start self mid in
      set_end self mid
  else self.

(** ** The properties the specification names *)

(** [a] does not come after [b] in the total order. *)
Definition precedes (a b : SVInterval) : Prop := __lt__ b a = false.

(** Sorted by the total order: no element is [__lt__] an earlier one. *)
Definition sorted_total (l : list SVInterval) : Prop := StronglySorted precedes l.

(** The test of line 278: merge-time overlap or gap-0 adjacency. *)
Definition conflict (a b : SVInterval) : bool :=
  overlaps_default a b || is_adjacent a b 0.

(** No two elements at distinct positions pass the test of line 278. *)
Definition non_overlapping (l : list SVInterval) : Prop :=
  ∀ i j a b, i ≠ j → l !! i = Some a → l !! j = Some b → conflict a b = false.

(** A call without slop, of positive width, inside [0, 10^9]. *)
Definition plain (i : SVInterval) : Prop :=
  wiggle i = 0 ∧ 0 ≤ start i ∧ start i < end_ i ∧ end_ i ≤ 1000000000.

(** The descendants without children. *)
Fixpoint leaves (i : SVInterval) : list SVInterval :=
  match sub_intervals i with
  | [] => [i]
  | _ :: _ => concat (map leaves (sub_intervals i))
  end.

(** [z] is the least [start] among the leaves below [i]. *)
Definition least_start (i : SVInterval) (z : Z) : Prop :=
  Forall (λ x, z ≤ start x) (leaves i) ∧ ∃ x, x ∈ leaves i ∧ start x = z.

(** [z] is the greatest [end] among the leaves below [i]. *)
Definition greatest_end (i : SVInterval) (z : Z) : Prop :=
  Forall (λ x, end_ x ≤ z) (leaves i) ∧ ∃ x, x ∈ leaves i ∧ end_ x = z.

(** Leaf calls used in examples. *)
Definition leaf (chrom : string) (start end_ wiggle : Z) (name sv_type source : string)
    : SVInterval :=
  mkSV chrom start end_ (Some name) sv_type 0 None {[source]} "./1" wiggle []
       false false None [] [] None.

(** The bounds as the specification words them: over the leaves below
    [i], the least [start - wiggle] and the greatest [end + wiggle]. *)
Definition wiggle_adjusted_start (i : SVInterval) : Z :=
  match leaves i with
  | [] => start i - wiggle i
  | x :: l => fold_left Z.min (map (λ y, start y - wiggle y) l) (start x - wiggle x)
  end.

Definition wiggle_adjusted_end (i : SVInterval) : Z :=
  match leaves i with
  | [] => end_ i + wiggle i
  | x :: l => fold_left Z.max (map (λ y, end_ y + wiggle y) l) (end_ x + wiggle x)
  end.

(** ** Notions used in the proofs *)

(** [p] ends before [x] starts when they share a chromosome. *)
Definition sep (p x : SVInterval) : Prop := chrom p = chrom x → end_ p < start x.

(** [c] is not after [x] when only [chrom] and [start] are compared. *)
Definition before (c x : SVInterval) : Prop :=
  String_as_OT.lt (chrom c) (chrom x) ∨ (chrom c = chrom x ∧ start c ≤ start x).

(** The first two elements of a list pass the test of line 278. *)
Definition first_two_conflict (r : list SVInterval) : bool :=
  match r with
  | a :: b :: _ => conflict a b
  | _ => false
  end.

(** One enumeration of a set, for the examples. *)
Definition sorted_elements : gset string → list string := elements.

(** ** Example inputs *)

(** Three plain calls, the first two of which are clustered. *)
Definition c1_plain_input : list SVInterval :=
  [leaf "1" 500 600 0 "b" "DEL" "BreakSeq";
   leaf "1" 105 210 0 "d" "DEL" "BreakDancer";
   leaf "1" 100 200 0 "a" "DEL" "Pindel"].

(** A call of width zero at the end of its predecessor. *)
Definition c1_point_input : list SVInterval :=
  [leaf "1" 0 10 0 "a" "DEL" "Pindel";
   leaf "1" 10 10 0 "b" "DEL" "Pindel";
   leaf "1" 10 20 0 "c" "DEL" "Pindel"].

(** A call whose wiggle reaches back over an earlier call. *)
Definition c1_wiggle_input : list SVInterval :=
  [leaf "1" 0 10 0 "a" "DEL" "Pindel";
   leaf "1" 12 20 0 "b" "DEL" "Pindel";
   leaf "1" 15 30 10 "c" "DEL" "Pindel"].

(** A call longer than [10^9] bases. *)
Definition c1_long_input : list SVInterval :=
  [leaf "1" 0 3000000000 0 "a" "DEL" "Pindel";
   leaf "1" 2999999999 3000000000 0 "b" "DEL" "Pindel";
   leaf "1" 2999999999 3000000001 0 "c" "DEL" "Pindel"].

(** A merged list: sorted, with gaps between its elements. *)
Definition c5_merged : list SVInterval :=
  [leaf "1" 100 210 0 "a,d" "DEL" "Pindel";
   leaf "1" 500 600 0 "b" "DEL" "BreakSeq";
   leaf "2" 50 80 0 "c" "DEL" "CNVnator"].

(** A list that is not in the total order. *)
Definition c10_input : list SVInterval :=
  [leaf "1" 500 600 0 "b" "DEL" "BreakSeq";
   leaf "1" 100 200 0 "a" "DEL" "Pindel"].

(** A reference list of plain calls and a query that spans both. *)
Definition c4_reference : list SVInterval :=
  [leaf "1" 100 200 0 "a" "DEL" "Pindel";
   leaf "1" 500 600 0 "b" "DEL" "BreakSeq"].

Definition c4_query : SVInterval := leaf "1" 150 550 5 "q" "DEL" "BreakDancer".



(** Two overlapping calls. *)
Definition c3_a : SVInterval := leaf "1" 0 10 0 "a" "DEL" "Pindel".
Definition c3_b : SVInterval := leaf "1" 5 15 0 "b" "DEL" "BreakDancer".

(** A precise and an imprecise call of the same deletion, and the cluster
    [merge_intervals] builds from them, with the [sv_type] given. *)
Definition pindel_call : SVInterval := leaf "1" 100 200 0 "a" "DEL" "Pindel".
Definition breakdancer_call : SVInterval := leaf "1" 105 210 0 "d" "DEL" "BreakDancer".

Definition two_tool_cluster (t : string) : SVInterval :=
  mkSV "1" 100 210 (Some "a,d"%string) t 0 None {["Pindel"; "BreakDancer"]}%string
       "./1" 0 [pindel_call; breakdancer_call] false false None [] [] None.

(** A leaf of a precise tool with an [sv_type] outside [svs_of_interest]. *)
Definition ctx_leaf : SVInterval := leaf "1" 100 200 0 "a" "CTX" "Pindel".

(** Two imprecise calls with wiggle, and the cluster [merge_intervals]
    builds from them. *)
Definition wide_breakdancer_call : SVInterval :=
  leaf "1" 100 200 10 "a" "DEL" "BreakDancer".
Definition wide_cnvnator_call : SVInterval :=
  leaf "1" 150 250 10 "b" "DEL" "CNVnator".

Definition wide_cluster : SVInterval :=
  mkSV "1" 90 260 (Some "a,b"%string) "DEL" 0 None {["BreakDancer"; "CNVnator"]}%string
       "./1" 0 [wide_breakdancer_call; wide_cnvnator_call] false false None [] []
       None.

(** ** What [merge_intervals] builds *)

(** The calls an element of the merged list stands for: itself when it
    has no children, its children otherwise. *)
Definition members (c : SVInterval) : list SVInterval :=
  match sub_intervals c with
  | [] => [c]
  | _ :: _ => sub_intervals c
  end.

Definition is_leaf (i : SVInterval) : Prop := sub_intervals i = [].

(** Every child lies on the chromosome of its parent. *)
Definition same_chrom (c : SVInterval) : Prop :=
  Forall (λ m, chrom m = chrom c) (sub_intervals c).

(** [start] is the least [start - wiggle] of the children and [end] the
    greatest [end + wiggle]. *)
Definition envelope (c : SVInterval) : Prop :=
  sub_intervals c ≠ [] →
  Forall (λ m, start c ≤ start m - wiggle m) (sub_intervals c)
  ∧ Exists (λ m, start c = start m - wiggle m) (sub_intervals c)
  ∧ Forall (λ m, end_ m + wiggle m ≤ end_ c) (sub_intervals c)
  ∧ Exists (λ m, end_ c = end_ m + wiggle m) (sub_intervals c).

(** [sources] is the union of the children's sources and [length] the
    greatest of their lengths. *)
Definition provenance (c : SVInterval) : Prop :=
  sub_intervals c ≠ [] →
  sources c = ⋃ (map sources (sub_intervals c))
  ∧ Forall (λ m, length m ≤ length c) (sub_intervals c)
  ∧ Exists (λ m, length c = length m) (sub_intervals c).

(** A parent has at least two children, none of which has children, and
    carries the flags and the wiggle of a fresh [SVInterval()]. *)
Definition two_level (c : SVInterval) : Prop :=
  sub_intervals c ≠ [] →
  (2 ≤ List.length (sub_intervals c))%nat
  ∧ Forall is_leaf (sub_intervals c)
  ∧ wiggle c = 0 ∧ is_precise c = false ∧ is_validated c = false
  ∧ validating_interval c = None.

Definition cluster_ok (c : SVInterval) : Prop :=
  same_chrom c ∧ envelope c ∧ provenance c ∧ two_level c.

(** No two different elements of the list tie in the total order. *)
Definition no_ties (l : list SVInterval) : Prop :=
  ∀ x y, x ∈ l → y ∈ l → precedes x y → precedes y x → x = y.

(** The list [merge_intervals] returns on [c1_plain_input]. *)
Definition c1_plain_merged : list SVInterval :=
  [two_tool_cluster "DEL"; leaf "1" 500 600 0 "b" "DEL" "BreakSeq"].

(** Two plain calls on one chromosome, ten bases apart. *)
Definition gap_left : SVInterval := leaf "1" 100 200 0 "a" "DEL" "Pindel".
Definition gap_right : SVInterval := leaf "1" 210 300 0 "b" "DEL" "Pindel".

(** ** What [do_validation] leaves alone *)

(** The attributes [do_validation] never assigns. *)
Definition same_identity (a b : SVInterval) : Prop :=
  chrom a = chrom b ∧ name a = name b ∧ sv_type a = sv_type b
  ∧ sources a = sources b ∧ wiggle a = wiggle b
  ∧ sub_intervals a = sub_intervals b
  ∧ cipos a = cipos b ∧ ciend a = ciend b ∧ native_sv a = native_sv b.

(** A cluster with a child whose tool is not one of [sv_sources]. *)
Definition lumpy_call : SVInterval := leaf "1" 120 220 0 "l" "DEL" "Lumpy".

Definition lumpy_cluster : SVInterval :=
  mkSV "1" 100 220 (Some "a,l"%string) "DEL" 0 None {["Pindel"; "Lumpy"]}%string
       "./1" 0 [pindel_call; lumpy_call] false false None [] [] None.

(** A cluster with a child that names no tool. *)
Definition anonymous_call : SVInterval :=
  mkSV "1" 120 220 (Some "n"%string) "DEL" 0 None ∅ "./1" 0 [] false false None
       [] [] None.

Definition anonymous_cluster : SVInterval :=
  mkSV "1" 100 220 (Some "a,n"%string) "DEL" 0 None {["Pindel"]}%string
       "./1" 0 [pindel_call; anonymous_call] false false None [] [] None.

(** ** [get_gaps_file] (lines 17-29)

    [gaps_b37] and [gaps_hg19] are the two path constants of lines 18-19;
    the warning logged before [None] is returned is not modelled. *)
Inductive gaps_file : Type := gaps_b37 | gaps_hg19.

(** [set(["chr%d" % i for i in xrange(1, 23)] + ["chrX", "chrY", "chrM"])]. *)
Definition hg19_major : gset string :=
  list_to_set (map (λ i, ("chr" ++ format_d (Z.of_nat i))%string) (seq 1 22)
               ++ ["chrX"; "chrY"; "chrM"]%string).

(** [set([str(i) for i in xrange(1, 23)] + ["X", "Y", "MT"])]. *)
Definition b37_major : gset string :=
  list_to_set (map (λ i, format_d (Z.of_nat i)) (seq 1 22)
               ++ ["X"; "Y"; "MT"]%string).

(** A set is true when it is not empty. *)
Definition get_gaps_file (contig_names : list string) : option gaps_file :=
  if bool_decide (list_to_set contig_names ∩ hg19_major ≠ ∅) then Some gaps_hg19
  else if bool_decide (list_to_set contig_names ∩ b37_major ≠ ∅) then Some gaps_b37
  else None.

(** An insertion called by an imprecise tool. *)
Definition imprecise_insertion : SVInterval :=
  leaf "1" 100 108 0 "ins" "INS" "BreakDancer".

(** ** Rendering and export (lines 15, 78-81, 178-256) *)

(** [sv_sources_to_type] (line 15). *)
Definition sv_sources_to_type : gmap string string :=
  list_to_map [("Pindel", "SR"); ("BreakSeq", "JM"); ("BreakDancer", "RP");
               ("CNVnator", "RD"); ("HaplotypeCaller", "AS")]%string.

(** [sorted] and [list.sort()] on strings. *)
Fixpoint insert_str (x : string) (l : list string) : list string :=
  match l with
  | [] => [x]
  | y :: l' => if str_ltb y x then y :: insert_str x l' else x :: y :: l'
  end.

Definition sorted_str (l : list string) : list string := foldr insert_str [] l.

(** [[sv_sources_to_type[tool] for tool in tools]]. *)
Fixpoint lookup_types (tools : list string) : result (list string) :=
  match tools with
  | [] => Ok []
  | tool :: rest =>
      match sv_sources_to_type !! tool with
      | None => Raise KeyError
      | Some t => tl ← lookup_types rest; Ok (t :: tl)
      end
  end.

(** The arguments [to_bed_interval] passes to [pybedtools.Interval]. *)
Record bed_interval : Type := mk_bed {
  bed_chrom : string;
  bed_start : Z;
  bed_end : Z;
  bed_name : string;
  bed_score : string
}.

(** A value of the INFO dictionary of [to_vcf_record]. *)
Inductive info_value : Type :=
| IStr (s : string)
| IInt (n : Z)
| INone.

(** The arguments [to_vcf_record] passes to [vcf.model._Record]; the
    single call has genotype ["1/1"] for the sample named. *)
Record vcf_record : Type := mk_vcf {
  vcf_chrom : string;
  vcf_pos : Z;
  vcf_id : string;
  vcf_ref : string;
  vcf_alt : list string;
  vcf_qual : string;
  vcf_filter : string;
  vcf_info : gmap string info_value;
  vcf_format : string;
  vcf_sample_indexes : list Z;
  vcf_sample : string
}.

(** [d.update(other)] for the entries of an [info] attribute. *)
Definition info_update (d : gmap string info_value) (other : list (string * string))
    : gmap string info_value :=
  fold_left (λ d kv, <[kv.1 := IStr kv.2]> d) other d.

(** [if interval.info: info.update(interval.info)]: [None] and the empty
    mapping are skipped. *)
Definition info_update_if (d : gmap string info_value)
    (other : option (list (string * string))) : gmap string info_value :=
  match other with
  | Some (kv :: l) => info_update d (kv :: l)
  | _ => d
  end.

(** The character of code 9, written ["\t"] in the source. *)
Definition tab : string :=
  String (Ascii.Ascii true false false true false false false false) EmptyString.

Section Serialization.

Variable list_of_set : gset string → list string.

(** [__str__] (lines 78-81). *)
Fixpoint __str__ (self : SVInterval) : string :=
  match sub_intervals self with
  | [] =>
      (chrom self ++ "-" ++ format_d (start self) ++ "-" ++ format_d (end_ self)
       ++ "-" ++ format_d (length self) ++ "-"
       ++ String.concat "," (list_of_set (sources self)))%string
  | _ :: _ => String.concat "," (map __str__ (sub_intervals self))
  end.

(** The rendering of line 81, applied to any interval. *)
Definition leaf_str (self : SVInterval) : string :=
  (chrom self ++ "-" ++ format_d (start self) ++ "-" ++ format_d (end_ self)
   ++ "-" ++ format_d (length self) ++ "-"
   ++ String.concat "," (list_of_set (sources self)))%string.

Definition source_types (self : SVInterval) : result (list string) :=
  lookup_types (list_of_set (sources self)).

(** [list(self.sources)[0] == "HaplotypeCaller"]. *)
Definition first_is_haplotypecaller (self : SVInterval) : result bool :=
  s ← first_source list_of_set self;
  Ok (String.eqb s "HaplotypeCaller").

(** [to_bed_interval] (lines 231-240). *)
Definition to_bed_interval (self : SVInterval) (sample_name : string)
    : result (option bed_interval) :=
  if start self <=? 0 then Ok None
  else if negb (str_in (sv_type self) ["DEL"; "INS"; "INV"]%string) then Ok None
  else
    let end' := if negb (String.eqb (sv_type self) "INS") then end_ self
                else end_ self + 1 in
    types ← source_types self;
    Ok (Some (mk_bed (chrom self) (start self) end'
                (sv_type self ++ "," ++ format_d (length self) ++ ","
                 ++ String.concat ";" (sorted_str types))%string
                (format_d (Z.of_nat (size (sources self)))))).

(** [to_svp_record] (lines 242-256). *)
Definition to_svp_record (self : SVInterval) (sample_name : string) (id_num : Z)
    : result (option string) :=
  if start self <=? 0 then Ok None
  else if negb (str_in (sv_type self) ["DEL"; "INS"; "INV"]%string) then Ok None
  else
    private_leaf ← (match sub_intervals self with
                    | [] => first_is_haplotypecaller self
                    | _ :: _ => Ok false
                    end);
    if (private_leaf : bool) then Ok None
    else
      private_single ← (if (size (sources self) =? 1)%nat
                        then first_is_haplotypecaller self
                        else Ok false);
      if (private_single : bool) then Ok None
      else
        types ← source_types self;
        Ok (Some (chrom self ++ tab ++ format_d (start self) ++ tab
                  ++ format_d (start self) ++ tab ++ format_d (end_ self) ++ tab
                  ++ format_d (end_ self) ++ tab ++ sv_type self ++ tab
                  ++ format_d (length self) ++ tab ++ "BWA" ++ tab ++ "Illumina"
                  ++ tab ++ sample_name ++ tab
                  ++ String.concat "," (sorted_str types) ++ tab ++ "MetaSV"
                  ++ tab ++ format_d id_num)%string).

(** The INFO dictionary before the computed keys are written (lines
    187-197); [info.update(None)] raises [TypeError]. *)
Definition inherited_info (self : SVInterval) : result (gmap string info_value) :=
  match sub_intervals self with
  | [] =>
      match info self with
      | None => Raise TypeError
      | Some l => Ok (info_update ∅ l)
      end
  | _ :: _ =>
      Ok (fold_left (λ d interval, info_update_if d (info interval))
                    (sub_intervals self) (info_update_if ∅ (info self)))
  end.

(** [to_vcf_record] (lines 178-228).  [fasta_handle], when given, is the
    function [fetch] of the handle. *)
Definition to_vcf_record (self : SVInterval)
    (fasta_handle : option (string → Z → Z → string)) (sample : string)
    : result (option vcf_record) :=
  if start self <=? 0 then Ok None
  else if negb (str_in (sv_type self) svs_of_interest) then Ok None
  else
    private ← (if match sub_intervals self with [] => true | _ :: _ => false end
                  || (size (sources self) =? 1)%nat
               then first_is_haplotypecaller self
               else Ok false);
    if (private : bool) then Ok None
    else
      info ← inherited_info self;
      svmethods ← source_types self;
      let svmethods := sorted_str svmethods in
      let sv_len := if String.eqb (sv_type self) "DEL" then - length self
                    else length self in
      let info := <["SVMETHOD"%string := IStr (String.concat "," svmethods)]>
                    (<["SVTYPE"%string := IStr (sv_type self)]>
                       (<["SVLEN"%string := IInt sv_len]> info)) in
      let info := if String.eqb (sv_type self) "DEL" || String.eqb (sv_type self) "DUP"
                  then <["END"%string := IInt (end_ self)]> info else info in
      let info := if negb (is_precise self) then <["IMPRECISE"%string := INone]> info
                  else info in
      let info := <["VT"%string := IStr "SV"]> info in
      let info := <["SVTOOL"%string := IStr "MetaSVMerge"]> info in
      let info := <["NUM_SVMETHODS"%string := IInt (Z.of_nat (size (sources self)))]>
                    info in
      let info := <["SOURCES"%string := IStr (__str__ self)]> info in
      let info := match cipos self with
                  | [] => info
                  | _ :: _ => <["CIPOS"%string := IStr (String.concat "," (cipos self))]>
                                info
                  end in
      Ok (Some (mk_vcf (chrom self) (start self) "."
                  (match fasta_handle with
                   | Some fetch => fetch (chrom self) (start self - 1) (start self)
                   | None => "N"%string
                   end)
                  [("<" ++ sv_type self ++ ">")%string] "."
                  (if is_validated self then "PASS" else "LowQual")%string
                  info "GT" [0] sample)).

End Serialization.

(** A call of positive width, with a wiggle that is not negative and a
    padded span of at most [10^9]. *)
Definition padded_call (i : SVInterval) : Prop :=
  0 ≤ wiggle i ∧ start i < end_ i
  ∧ end_ i - start i + 2 * wiggle i ≤ 1000000000.


(** No element passes the test of line 278 against its successor. *)
Definition no_successor_conflict (l : list SVInterval) : Prop :=
  ∀ i a b, l !! i = Some a → l !! S i = Some b → conflict a b = false.

(** * Theorems *)

(** ** The total order *)

Lemma str_ltb_lt a b : str_ltb a b = true ↔ String_as_OT.lt a b.
Proof.
  unfold str_ltb, String_as_OT.lt.
  destruct (String_as_OT.compare a b); split; congruence.
Qed.

Lemma str_lt_irrefl a : ¬ String_as_OT.lt a a.
Proof. apply (StrictOrder_Irreflexive (R := String_as_OT.lt)). Qed.

Lemma str_lt_trans a b c :
  String_as_OT.lt a b → String_as_OT.lt b c → String_as_OT.lt a c.
Proof. apply (StrictOrder_Transitive (R := String_as_OT.lt)). Qed.

Lemma str_lt_total a b : String_as_OT.lt a b ∨ a = b ∨ String_as_OT.lt b a.
Proof.
  destruct (String_as_OT.compare_spec a b); auto.
Qed.

Lemma lt_spec a b :
  __lt__ a b = true ↔
  String_as_OT.lt (chrom a) (chrom b)
  ∨ (chrom a = chrom b
     ∧ (start a < start b ∨ (start a = start b ∧ end_ a < end_ b))).
Proof.
  unfold __lt__.
  destruct (String.eqb_spec (chrom a) (chrom b)) as [Hc | Hc]; simpl.
  - rewrite Hc. destruct (Z.eqb_spec (start a) (start b)) as [Hs | Hs]; simpl.
    + rewrite Z.ltb_lt. split.
      * intros. right. split; [done | lia].
      * intros [H | [_ H]]; [by apply str_lt_irrefl in H | lia].
    + rewrite Z.ltb_lt. split.
      * intros. right. split; [done | lia].
      * intros [H | [_ H]]; [by apply str_lt_irrefl in H | lia].
  - rewrite str_ltb_lt. split; [auto | intros [H | [H _]]; [done | congruence]].
Qed.

Lemma precedes_spec a b :
  precedes a b ↔
  String_as_OT.lt (chrom a) (chrom b)
  ∨ (chrom a = chrom b
     ∧ (start a < start b ∨ (start a = start b ∧ end_ a ≤ end_ b))).
Proof.
  unfold precedes. rewrite <- not_true_iff_false, lt_spec. split.
  - intros Hn. destruct (str_lt_total (chrom a) (chrom b)) as [H | [H | H]].
    + by left.
    + right. split; [done |].
      destruct (Z.lt_trichotomy (start a) (start b)) as [? | [? | ?]].
      * by left.
      * right. split; [done |].
        destruct (Z.le_gt_cases (end_ a) (end_ b)); [done |].
        exfalso. apply Hn. right. split; [done | right; lia].
      * exfalso. apply Hn. right. split; [done | left; lia].
    + exfalso. apply Hn. by left.
  - intros [H | [Hc H]] [H' | [Hc' H']].
    + eapply str_lt_irrefl, str_lt_trans; eauto.
    + rewrite Hc' in H. by apply str_lt_irrefl in H.
    + rewrite Hc in H'. by apply str_lt_irrefl in H'.
    + lia.
Qed.

Lemma precedes_refl a : precedes a a.
Proof. apply precedes_spec. right. split; [done | right; lia]. Qed.

Lemma precedes_trans a b c : precedes a b → precedes b c → precedes a c.
Proof.
  rewrite !precedes_spec.
  intros [H1 | [Hc1 H1]] [H2 | [Hc2 H2]].
  - left. eapply str_lt_trans; eauto.
  - left. by rewrite <- Hc2.
  - left. by rewrite Hc1.
  - right. split; [congruence | lia].
Qed.

Lemma lt_precedes a b : __lt__ a b = true → precedes a b.
Proof.
  rewrite lt_spec, precedes_spec.
  intros [H | [Hc H]]; [by left | right; split; [done | lia]].
Qed.

Lemma precedes_total a b : precedes a b ∨ precedes b a.
Proof.
  unfold precedes at 1. destruct (__lt__ b a) eqn:H; [| by left].
  right. by apply lt_precedes.
Qed.

(** Within one chromosome the order is first by [start]. *)
Lemma precedes_same_chrom a b :
  precedes a b → chrom a = chrom b → start a ≤ start b.
Proof.
  rewrite precedes_spec. intros [H | [_ H]] Hc; [| lia].
  rewrite Hc in H. by apply str_lt_irrefl in H.
Qed.


(** ** [list.sort()] *)

Lemma insert_sorted_perm x l : insert_sorted x l ≡ₚ x :: l.
Proof.
  induction l as [| y l IH]; simpl; [done |].
  destruct (__lt__ y x); [| done].
  rewrite IH. apply Permutation_swap.
Qed.

Lemma sort_perm l : sort l ≡ₚ l.
Proof.
  induction l as [| x l IH]; simpl; [done |].
  by rewrite insert_sorted_perm, IH.
Qed.

Lemma insert_sorted_sorted x l : sorted_total l → sorted_total (insert_sorted x l).
Proof.
  unfold sorted_total. induction 1 as [| y l Hl IH Hy]; simpl.
  - repeat constructor.
  - destruct (__lt__ y x) eqn:Hlt.
    + constructor; [done |].
      rewrite insert_sorted_perm. constructor; [by apply lt_precedes | done].
    + constructor; [by constructor |].
      constructor; [done |].
      eapply Forall_impl; [exact Hy |]. intros z Hz.
      by apply precedes_trans with y.
Qed.

Lemma sort_sorted l : sorted_total (sort l).
Proof.
  induction l as [| x l IH]; simpl; [constructor | by apply insert_sorted_sorted].
Qed.

(** Sorting a sorted list changes nothing. *)
Lemma sort_sorted_id l : sorted_total l → sort l = l.
Proof.
  unfold sorted_total. induction 1 as [| x l Hl IH Hx]; simpl; [done |].
  rewrite IH. destruct Hx as [| y l' Hy _]; simpl; [done |].
  unfold precedes in Hy. by rewrite Hy.
Qed.

Lemma sort_length l : List.length (sort l) = List.length l.
Proof. apply Permutation_length, sort_perm. Qed.

(** ** [bisect.bisect_left] on a sorted list *)




(** ** The geometric predicates *)

Lemma Qle_bool_Qmaxb x y c :
  Qle_bool (Qmaxb x y) c = Qle_bool x c && Qle_bool y c.
Proof.
  apply eq_iff_eq_true. rewrite andb_true_iff, !Qle_bool_iff.
  unfold Qmaxb. destruct (Qle_bool x y) eqn:Hxy.
  - apply Qle_bool_iff in Hxy. split; [| tauto].
    intros H. split; [by apply Qle_trans with y | done].
  - assert (y <= x)%Q as Hyx.
    { apply Qlt_le_weak, Qnot_le_lt. intros H%Qle_bool_iff. congruence. }
    split; [| tauto]. intros H. split; [done | by apply Qle_trans with x].
Qed.

(** With spans of at most [10^9] an overlap of one base passes both
    thresholds of the merge-time test. *)
Lemma merge_thresholds n1 n2 m :
  n1 ≤ 1000000000 → n2 ≤ 1000000000 → 1 ≤ m →
  Qle_bool (Qmaxb (default_fraction * inject_Z n1) (default_fraction * inject_Z n2))
           (inject_Z m)
  && Qle_bool (Qmaxb default_fraction (inject_Z 1)) (inject_Z m) = true.
Proof.
  intros H1 H2 Hm. rewrite !Qle_bool_Qmaxb, !andb_true_iff, !Qle_bool_iff.
  unfold default_fraction, Qle, Qmult, inject_Z. cbn [Qnum Qden Pos.mul].
  lia.
Qed.

Lemma overlaps_default_true_iff a b :
  end_ a - start a + 2 * wiggle a ≤ 1000000000 →
  end_ b - start b + 2 * wiggle b ≤ 1000000000 →
  overlaps_default a b = true ↔
  chrom a = chrom b
  ∧ Z.max (start a - wiggle a) (start b - wiggle b)
    < Z.min (end_ a + wiggle a) (end_ b + wiggle b).
Proof.
  intros Ha Hb. unfold overlaps_default, overlaps.
  destruct (String.eqb_spec (chrom a) (chrom b)) as [Hc | Hc]; simpl.
  2: { split; [done | tauto]. }
  destruct (Z.leb_spec (Z.min (end_ a + wiggle a) (end_ b + wiggle b))
                       (Z.max (start a - wiggle a) (start b - wiggle b))) as [H | H].
  - split; [done | lia].
  - rewrite merge_thresholds; [tauto | done | done | lia].
Qed.

Lemma is_adjacent_true_iff a b :
  is_adjacent a b 0 = true ↔
  chrom a = chrom b
  ∧ ((start b ≤ end_ a ∧ end_ a < end_ b) ∨ (start a ≤ end_ b ∧ end_ b < end_ a)).
Proof.
  unfold is_adjacent.
  destruct (String.eqb_spec (chrom a) (chrom b)) as [Hc | Hc]; simpl.
  2: { split; [done | tauto]. }
  rewrite !Z.add_0_r, orb_true_iff, !andb_true_iff, !Z.leb_le, !Z.ltb_lt. tauto.
Qed.

(** Two plain calls pass neither test exactly when they lie on different
    chromosomes or a gap of at least one base separates them. *)
Lemma conflict_plain a b :
  plain a → plain b →
  conflict a b = false ↔
  (chrom a = chrom b → end_ a < start b ∨ end_ b < start a).
Proof.
  intros (Hwa & Ha0 & Ha & Ha9) (Hwb & Hb0 & Hb & Hb9).
  unfold conflict. rewrite <- not_true_iff_false, orb_true_iff.
  rewrite is_adjacent_true_iff, overlaps_default_true_iff by lia.
  rewrite Hwa, Hwb. split.
  - intros Hn Hc.
    destruct (Z.lt_ge_cases (end_ a) (start b)); [by left |].
    destruct (Z.lt_ge_cases (end_ b) (start a)); [by right |].
    exfalso. apply Hn.
    destruct (Z.lt_trichotomy (end_ a) (end_ b)) as [? | [? | ?]].
    + right. split; [done |]. left. lia.
    + left. split; [done |]. lia.
    + right. split; [done |]. right. lia.
  - intros Hsep [[Hc H] | [Hc H]]; specialize (Hsep Hc); lia.
Qed.

(** ** [merge_intervals]: the scan over the sorted list *)

Lemma precedes_before a b : precedes a b → before a b.
Proof.
  rewrite precedes_spec. intros [H | [Hc H]]; [by left | right; split; [done | lia]].
Qed.

Lemma before_sandwich c n x :
  before c n → precedes n x → chrom c = chrom x →
  chrom n = chrom c ∧ start n ≤ start x.
Proof.
  intros [H1 | [Hc1 _]] H2 Hc.
  - exfalso. apply precedes_spec in H2 as [H2 | [Hc2 _]].
    + rewrite Hc in H1. eapply str_lt_irrefl, str_lt_trans; eauto.
    + rewrite Hc, <- Hc2 in H1. by apply str_lt_irrefl in H1.
  - split; [done |]. apply precedes_same_chrom; [done | congruence].
Qed.

Lemma StronglySorted_lookup {A} (R : relation A) l i j a b :
  StronglySorted R l → (i < j)%nat → l !! i = Some a → l !! j = Some b → R a b.
Proof.
  intros Hl. revert i j.
  induction Hl as [| y l Hl IH Hy]; intros i j Hij Hi Hj; [done |].
  destruct i as [| i], j as [| j]; simpl in *; simplify_eq; try lia.
  - rewrite Forall_lookup in Hy. eauto.
  - eapply IH; [| done | done]. lia.
Qed.

(** What one absorption does to the running cluster. *)
Lemma absorb_bounds cur next new :
  wiggle cur = 0 →
  match sub_intervals cur with
  | _ :: _ => merge cur next
  | [] => set_merged SVInterval_default cur next
  end = Ok new →
  chrom new = chrom cur ∧ wiggle new = 0
  ∧ start new = Z.min (start cur) (start next - wiggle next)
  ∧ end_ new = Z.max (end_ cur) (end_ next + wiggle next).
Proof.
  intros Hw. unfold merge, set_merged.
  destruct (sub_intervals cur);
    destruct (concat_names (name cur) (name next)); simpl; intros H;
    simplify_eq; simpl; rewrite ?Hw, ?Z.sub_0_r, ?Z.add_0_r; done.
Qed.

Lemma merge_loop_separated rest : ∀ cur acc r,
  merge_loop cur rest acc = Ok r →
  Forall plain acc → plain cur → Forall plain rest →
  sorted_total rest → Forall (before cur) rest →
  StronglySorted sep acc →
  (∀ p x, p ∈ acc → x ∈ cur :: rest → sep p x) →
  Forall plain r ∧ StronglySorted sep r.
Proof.
  induction rest as [| next rest IH];
    intros cur acc r Hrun Hacc Hcur Hrest Hsorted Hbefore Hss Hsep; simpl in Hrun.
  { simplify_eq. split.
    - apply Forall_app. split; [done | by constructor].
    - apply StronglySorted_app_2; [| done | repeat constructor].
      intros p x Hp Hx. apply Hsep; [done |]. set_solver. }
  apply Forall_cons in Hrest as [Hnext Hrest].
  apply StronglySorted_cons in Hsorted as [Hnext_le Hsorted].
  apply Forall_cons in Hbefore as [Hcn Hbefore].
  destruct (overlaps_default cur next || is_adjacent cur next 0) eqn:Hconf.
  - (* absorb [next] *)
    destruct (match sub_intervals cur with
              | [] => set_merged SVInterval_default cur next
              | _ :: _ => merge cur next
              end) as [new | e] eqn:Hnew; [| done].
    simpl in Hrun.
    assert (chrom cur = chrom next) as Hc.
    { apply orb_true_iff in Hconf as [H | H].
      - unfold overlaps_default, overlaps in H.
        destruct (String.eqb_spec (chrom cur) (chrom next)); done.
      - by apply is_adjacent_true_iff in H as [? _]. }
    destruct Hcur as (Hw & Hc0 & Hcw & Hc9). destruct Hnext as (Hwn & Hn0 & Hnw & Hn9).
    apply absorb_bounds in Hnew as (Hnc & Hnw' & Hns & Hne); [| done].
    rewrite Hwn, Z.sub_0_r in Hns. rewrite Hwn, Z.add_0_r in Hne.
    apply (IH new acc r); try done.
    + unfold plain. lia.
    + eapply Forall_impl; [exact Hbefore |]. intros x [H | [H1 H2]].
      * left. by rewrite Hnc.
      * right. split; [congruence | lia].
    + intros p x Hp Hx. apply elem_of_cons in Hx as [-> | Hx].
      * intros Hpc. rewrite Hnc in Hpc.
        assert (end_ p < start cur) by (apply (Hsep p cur); [done | set_solver | done]).
        assert (end_ p < start next)
          by (apply (Hsep p next); [done | set_solver | congruence]).
        lia.
      * apply Hsep; [done | set_solver].
  - (* emit the running cluster *)
    assert (sep cur next) as Hsepn.
    { intros Hc. unfold conflict in *.
      pose proof (proj1 (conflict_plain cur next Hcur Hnext) Hconf Hc) as [H | H];
        [done |].
      destruct Hcn as [Hlt | [_ Hle]].
      - rewrite Hc in Hlt. by apply str_lt_irrefl in Hlt.
      - destruct Hnext as (_ & _ & ? & _). lia. }
    apply (IH next (acc ++ [cur]) r); try done.
    + apply Forall_app. split; [done | by constructor].
    + eapply Forall_impl; [exact Hnext_le |]. intros x. apply precedes_before.
    + apply StronglySorted_app_2; [| done | repeat constructor].
      intros p x Hp Hx. apply Hsep; [done |]. set_solver.
    + intros p x Hp Hx. apply elem_of_app in Hp as [Hp | Hp].
      * apply Hsep; [done |]. set_solver.
      * apply list_elem_of_singleton in Hp as ->.
        apply elem_of_cons in Hx as [-> | Hx]; [done |].
        intros Hc. rewrite Forall_forall in Hnext_le.
        destruct (before_sandwich cur next x Hcn (Hnext_le x Hx) Hc) as [Hc' Hs].
        assert (end_ cur < start next) by (apply Hsepn; congruence). lia.
Qed.

(** Separated plain calls are non-overlapping, in whatever order they are
    listed. *)
Lemma separated_non_overlapping l l' :
  Forall plain l → StronglySorted sep l → l' ≡ₚ l → non_overlapping l'.
Proof.
  intros Hplain Hss Hperm i j a b Hij Hi Hj.
  apply Permutation_inj in Hperm as [_ (f & Hf & Hlook)].
  rewrite Hlook in Hi, Hj.
  assert (f i ≠ f j) as Hfij by (intros H; by apply Hf in H).
  rewrite Forall_lookup in Hplain.
  apply conflict_plain; [by eapply Hplain | by eapply Hplain |].
  intros Hc. destruct (Nat.lt_ge_cases (f i) (f j)) as [Hlt | Hge].
  - left. by apply (StronglySorted_lookup sep l (f i) (f j) a b).
  - right. apply (StronglySorted_lookup sep l (f j) (f i) b a); try done. lia.
Qed.

(** The scan ends in a list whenever every name is present. *)
Lemma merge_loop_returns rest : ∀ cur acc,
  is_Some (name cur) → Forall (λ i, is_Some (name i)) rest →
  ∃ r, merge_loop cur rest acc = Ok r.
Proof.
  induction rest as [| next rest IH]; intros cur acc Hcur Hrest; simpl; [eauto |].
  apply Forall_cons in Hrest as [Hnext Hrest].
  destruct (overlaps_default cur next || is_adjacent cur next 0); [| by apply IH].
  destruct Hcur as [n1 Hn1], Hnext as [n2 Hn2].
  unfold merge, set_merged. rewrite Hn1, Hn2.
  destruct (sub_intervals cur); simpl; by apply IH.
Qed.

Lemma merge_intervals_returns l :
  Forall (λ i, is_Some (name i)) l → ∃ r, merge_intervals l = Ok r.
Proof.
  intros Hl. unfold merge_intervals, merge_intervals_run, merge_sorted. simpl.
  assert (Forall (λ i, is_Some (name i)) (sort l)) as Hs by (by rewrite sort_perm).
  destruct (sort l) as [| first rest]; [eauto |].
  apply Forall_cons in Hs as [Hf Hr].
  destruct (merge_loop_returns rest first [] Hf Hr) as [r Hrun].
  rewrite Hrun. simpl. eauto.
Qed.

Lemma merge_intervals_Ok_inv l r :
  merge_intervals l = Ok r →
  (sort l = [] ∧ r = [])
  ∨ ∃ first rest m, sort l = first :: rest
      ∧ merge_loop first rest [] = Ok m ∧ r = sort m.
Proof.
  unfold merge_intervals, merge_intervals_run, merge_sorted. simpl.
  destruct (sort l) as [| first rest].
  { intros H. simplify_eq. by left. }
  destruct (merge_loop first rest []) as [m | e] eqn:Hm; simpl; [| done].
  intros H. simplify_eq. right. by exists first, rest, m.
Qed.

Lemma merge_intervals_sorted l r : merge_intervals l = Ok r → sorted_total r.
Proof.
  intros [[_ ->] | (first & rest & m & _ & _ & ->)]%merge_intervals_Ok_inv.
  - constructor.
  - apply sort_sorted.
Qed.

Lemma merge_intervals_plain l r :
  Forall plain l → merge_intervals l = Ok r → non_overlapping r.
Proof.
  intros Hplain [[_ ->] | (first & rest & m & Hsort & Hrun & ->)]%merge_intervals_Ok_inv.
  { intros i j a b _ Hi. done. }
  assert (Forall plain (first :: rest)) as Hp by (by rewrite <- Hsort, sort_perm).
  assert (sorted_total (first :: rest)) as Hs by (rewrite <- Hsort; apply sort_sorted).
  apply Forall_cons in Hp as [Hpf Hpr].
  apply StronglySorted_cons in Hs as [Hsf Hsr].
  destruct (merge_loop_separated rest first [] m Hrun) as [Hm1 Hm2]; try done.
  - eapply Forall_impl; [exact Hsf |]. intros x. apply precedes_before.
  - constructor.
  - intros p x Hp. by apply elem_of_nil in Hp.
  - apply (separated_non_overlapping m); [done | done | apply sort_perm].
Qed.

(** C1, as the code has it.  Whatever list [merge_intervals] returns is
    sorted by the total order, and it returns one whenever every name is
    present.  The returned list is non-overlapping (no two elements pass
    the merge-time overlap test or the gap-0 adjacency test) when every
    input call has no wiggle, positive width and coordinates within
    [0, 10^9]. *)
Theorem merge_intervals_sorted_non_overlapping (l : list SVInterval) :
  (Forall (λ i, is_Some (name i)) l → ∃ r, merge_intervals l = Ok r)
  ∧ (∀ r, merge_intervals l = Ok r →
       sorted_total r ∧ (Forall plain l → non_overlapping r)).
Proof.
  split; [apply merge_intervals_returns |].
  intros r Hr. split; [by apply merge_intervals_sorted with l |].
  intros Hplain. by apply merge_intervals_plain with l.
Qed.

Lemma c1_plain_input_plain : Forall plain c1_plain_input.
Proof. repeat constructor; simpl; lia. Qed.

Lemma c1_plain_input_named : Forall (λ i, is_Some (name i)) c1_plain_input.
Proof. repeat constructor; simpl; eauto. Qed.

Lemma merge_intervals_sorted_non_overlapping_witness :
  ∃ r, merge_intervals c1_plain_input = Ok r
       ∧ List.length r = 2%nat ∧ sorted_total r ∧ non_overlapping r.
Proof.
  destruct (merge_intervals_sorted_non_overlapping c1_plain_input) as [Hret Hprop].
  destruct (Hret c1_plain_input_named) as [r Hr].
  destruct (Hprop r Hr) as [Hs Hn].
  exists r. split; [exact Hr |]. split.
  - vm_compute in Hr. injection Hr as <-. reflexivity.
  - split; [exact Hs | exact (Hn c1_plain_input_plain)].
Defined.

Lemma first_two_conflict_overlapping r :
  first_two_conflict r = true → ¬ non_overlapping r.
Proof.
  destruct r as [| a [| b r]]; simpl; try done.
  intros Hc Hn. specialize (Hn 0%nat 1%nat a b). simpl in Hn.
  rewrite Hn in Hc; done.
Qed.

(** On each of three inputs the list returned by [merge_intervals] is not
    non-overlapping: a call of width zero at the end of its predecessor, a
    call whose wiggle reaches back over an emitted cluster, and a cluster
    longer than [10^9] bases. *)
Lemma merge_intervals_overlapping_output :
  (∃ r, merge_intervals c1_point_input = Ok r ∧ ¬ non_overlapping r)
  ∧ (∃ r, merge_intervals c1_wiggle_input = Ok r ∧ ¬ non_overlapping r)
  ∧ (∃ r, merge_intervals c1_long_input = Ok r ∧ ¬ non_overlapping r).
Proof.
  split; [| split].
  - destruct (merge_intervals c1_point_input) as [r | e] eqn:Hr; [| by vm_compute in Hr].
    exists r. split; [done |]. apply first_two_conflict_overlapping.
    vm_compute in Hr. injection Hr as <-. by vm_compute.
  - destruct (merge_intervals c1_wiggle_input) as [r | e] eqn:Hr; [| by vm_compute in Hr].
    exists r. split; [done |]. apply first_two_conflict_overlapping.
    vm_compute in Hr. injection Hr as <-. by vm_compute.
  - destruct (merge_intervals c1_long_input) as [r | e] eqn:Hr; [| by vm_compute in Hr].
    exists r. split; [done |]. apply first_two_conflict_overlapping.
    vm_compute in Hr. injection Hr as <-. by vm_compute.
Qed.

(** ** Merging a list that is already merged *)

Lemma non_overlapping_tail x l : non_overlapping (x :: l) → non_overlapping l.
Proof.
  intros H i j a b Hij Hi Hj. apply (H (S i) (S j) a b); [lia | done | done].
Qed.

Lemma merge_loop_no_conflict rest : ∀ cur acc,
  non_overlapping (cur :: rest) →
  merge_loop cur rest acc = Ok (acc ++ cur :: rest).
Proof.
  induction rest as [| next rest IH]; intros cur acc Hn; simpl; [done |].
  assert (conflict cur next = false) as Hc by (by apply (Hn 0%nat 1%nat)).
  unfold conflict in Hc. rewrite Hc.
  rewrite IH by (by apply non_overlapping_tail with cur).
  by rewrite <- app_assoc.
Qed.

Lemma merge_sorted_fixed l :
  sorted_total l → non_overlapping l → merge_sorted l = Ok l.
Proof.
  intros Hs Hn. unfold merge_sorted. destruct l as [| first rest]; [done |].
  rewrite merge_loop_no_conflict by done.
  unfold mbind, result_bind. by rewrite app_nil_l, (sort_sorted_id _ Hs).
Qed.

(** On plain calls a second merge changes nothing. *)
Lemma merge_intervals_twice_plain l r :
  Forall plain l → merge_intervals l = Ok r → merge_intervals r = Ok r.
Proof.
  intros Hplain Hr.
  pose proof (merge_intervals_sorted l r Hr) as Hs.
  pose proof (merge_intervals_plain l r Hplain Hr) as Hn.
  unfold merge_intervals, merge_intervals_run. cbn [snd].
  rewrite (sort_sorted_id r Hs). by apply merge_sorted_fixed.
Qed.

Lemma non_overlapping_no_successor_conflict l :
  non_overlapping l → no_successor_conflict l.
Proof. intros Hn i a b Ha Hb. apply (Hn i (S i)); [lia | done | done]. Qed.

Lemma no_successor_conflict_cons a b l :
  conflict a b = false → no_successor_conflict (b :: l) →
  no_successor_conflict (a :: b :: l).
Proof.
  intros Hab Hl [| i] x y Hx Hy; simpl in *.
  - by simplify_eq.
  - by apply (Hl i).
Qed.

Lemma no_successor_conflict_inv a b l :
  no_successor_conflict (a :: b :: l) →
  conflict a b = false ∧ no_successor_conflict (b :: l).
Proof.
  intros H. split; [by apply (H 0%nat) |].
  intros i x y Hx Hy. by apply (H (S i)).
Qed.

(** Without a successor conflict the scan emits every call as it is. *)
Lemma merge_loop_no_successor_conflict rest : ∀ cur acc,
  no_successor_conflict (cur :: rest) →
  merge_loop cur rest acc = Ok (acc ++ cur :: rest).
Proof.
  induction rest as [| next rest IH]; intros cur acc Hn; simpl; [done |].
  apply no_successor_conflict_inv in Hn as [Hc Hn].
  unfold conflict in Hc. rewrite Hc, IH by done.
  by rewrite <- app_assoc.
Qed.

(** A scan that emits as many clusters as it read calls has merged
    nothing. *)
Lemma merge_loop_full rest : ∀ cur acc r,
  merge_loop cur rest acc = Ok r →
  (List.length r ≤ List.length acc + 1 + List.length rest)%nat
  ∧ (List.length r = (List.length acc + 1 + List.length rest)%nat →
     r = acc ++ cur :: rest ∧ no_successor_conflict (cur :: rest)).
Proof.
  induction rest as [| next rest IH]; intros cur acc r Hrun; cbn [merge_loop] in Hrun.
  { assert (r = acc ++ [cur]) as -> by congruence. rewrite length_app. simpl.
    split; [lia |]. intros _. split; [done |].
    intros [| i] a b Ha Hb; simpl in *; simplify_eq. }
  destruct (overlaps_default cur next || is_adjacent cur next 0) eqn:Hconf.
  - destruct (match sub_intervals cur with
              | [] => set_merged SVInterval_default cur next
              | _ :: _ => merge cur next
              end) as [new | e]; [| done].
    cbn [mbind result_bind] in Hrun. destruct (IH _ _ _ Hrun) as [Hle _].
    simpl. split; lia.
  - destruct (IH _ _ _ Hrun) as [Hle Heq]. rewrite length_app in Hle, Heq.
    simpl in *. split; [lia |]. intros Hlen.
    destruct Heq as [-> Hn]; [lia |]. split; [by rewrite <- app_assoc |].
    by apply no_successor_conflict_cons.
Qed.

(** C5, as the code has it.  [merge_intervals] returns a list equal to its
    argument, element by element, exactly when the argument is sorted by
    the total order and no element passes the overlaps test or the gap-0
    adjacency test against its successor.  So every sorted, non-overlapping
    list is returned unchanged, and the argument list is left as it was;
    and every list returned on calls with no wiggle, positive width and
    coordinates within [0, 10^9] is returned unchanged by a second merge. *)
Theorem merge_intervals_idempotent (l : list SVInterval) :
  (merge_intervals l = Ok l ↔ sorted_total l ∧ no_successor_conflict l)
  ∧ (sorted_total l → non_overlapping l →
     merge_intervals l = Ok l ∧ fst (merge_intervals_run l) = l)
  ∧ (∀ l0, Forall plain l0 → merge_intervals l0 = Ok l → merge_intervals l = Ok l).
Proof.
  assert (sorted_total l → no_successor_conflict l → merge_intervals l = Ok l) as Hfix.
  { intros Hs Hn. unfold merge_intervals, merge_intervals_run. cbn [snd].
    rewrite (sort_sorted_id l Hs). unfold merge_sorted.
    destruct l as [| first rest]; [done |].
    rewrite merge_loop_no_successor_conflict by done.
    unfold mbind, result_bind. by rewrite app_nil_l, (sort_sorted_id _ Hs). }
  split; [| split].
  - split; [| intros [Hs Hn]; by apply Hfix].
    intros Hrun. pose proof (merge_intervals_sorted l l Hrun) as Hs.
    split; [done |].
    apply merge_intervals_Ok_inv in Hrun
      as [[_ ->] | (first & rest & m & Hsort & Hloop & Hl)].
    { intros i a b Ha. done. }
    rewrite (sort_sorted_id l Hs) in Hsort.
    destruct (merge_loop_full rest first [] m Hloop) as [_ Heq].
    destruct Heq as [_ Hn].
    + rewrite <- (sort_length m), <- Hl, Hsort. simpl. lia.
    + by rewrite Hsort.
  - intros Hs Hn. split.
    + apply Hfix; [done | by apply non_overlapping_no_successor_conflict].
    + unfold merge_intervals_run. cbn [fst]. by apply sort_sorted_id.
  - intros l0 Hplain Hrun. by apply merge_intervals_twice_plain with l0.
Qed.

Lemma merge_intervals_idempotent_witness :
  merge_intervals c5_merged = Ok c5_merged ∧ fst (merge_intervals_run c5_merged) = c5_merged.
Proof.
  destruct (merge_intervals_idempotent c5_merged) as (_ & H & _).
  apply H.
  - repeat constructor.
  - apply (separated_non_overlapping c5_merged c5_merged).
    + repeat constructor; simpl; lia.
    + unfold sep. repeat constructor; simpl; intros; try lia; done.
    + reflexivity.
Defined.

(** The list returned on [c1_point_input] is sorted and has two elements,
    [0,10] and [10,20]; merged again it comes back as the one cluster
    [0,20]. *)
Lemma merge_intervals_second_pass_merges :
  ∃ r r', merge_intervals c1_point_input = Ok r ∧ sorted_total r
          ∧ merge_intervals r = Ok r'
          ∧ List.length r = 2%nat ∧ r' ≠ r
          ∧ ∃ c, r' = [c] ∧ start c = 0 ∧ end_ c = 20.
Proof.
  destruct (merge_intervals c1_point_input) as [r | e] eqn:Hr;
    [| vm_compute in Hr; discriminate Hr].
  pose proof (merge_intervals_sorted _ _ Hr) as Hs.
  destruct (merge_intervals r) as [r' | e] eqn:Hr'.
  - exists r, r'. split; [reflexivity |]. split; [exact Hs |]. split; [exact Hr' |].
    clear Hs. vm_compute in Hr. injection Hr as <-.
    vm_compute in Hr'. injection Hr' as <-.
    split; [reflexivity |]. split.
    + intros H. apply (f_equal (@List.length SVInterval)) in H. discriminate H.
    + eexists. split; [reflexivity |]. split; reflexivity.
  - clear Hs. vm_compute in Hr. injection Hr as <-.
    vm_compute in Hr'. discriminate Hr'.
Qed.

(** ** The argument list of [merge_intervals] *)

(** C10, as the code has it.  When [merge_intervals] ends, its argument
    list holds the elements it held before, rearranged into the total
    order by the stable sort of line 271; it is unchanged exactly when it
    was sorted already.  The returned list is computed from that sorted
    argument. *)
Theorem merge_intervals_sorts_argument (l : list SVInterval) :
  fst (merge_intervals_run l) = sort l
  ∧ fst (merge_intervals_run l) ≡ₚ l
  ∧ sorted_total (fst (merge_intervals_run l))
  ∧ snd (merge_intervals_run l) = merge_sorted (fst (merge_intervals_run l))
  ∧ (sorted_total l ↔ fst (merge_intervals_run l) = l).
Proof.
  unfold merge_intervals_run. simpl.
  split; [done |]. split; [apply sort_perm |]. split; [apply sort_sorted |].
  split; [done |]. split; [apply sort_sorted_id |].
  intros <-. apply sort_sorted.
Qed.

Lemma merge_intervals_sorts_argument_witness :
  sorted_total (rev c10_input) ∧ fst (merge_intervals_run (rev c10_input)) = rev c10_input.
Proof.
  assert (sorted_total (rev c10_input)) as Hs by (repeat constructor).
  split; [exact Hs |].
  destruct (merge_intervals_sorts_argument (rev c10_input)) as (_ & _ & _ & _ & H).
  exact (proj1 H Hs).
Defined.

(** An unsorted argument list does not hold its elements in the same
    order after the call. *)
Lemma merge_intervals_mutates_argument :
  fst (merge_intervals_run c10_input) ≠ c10_input.
Proof. vm_compute. intros H. discriminate H. Qed.

(** ** [interval_overlaps_interval_list] *)

Lemma interval_overlaps_interval_list_true interval interval_list f g :
  interval_overlaps_interval_list interval interval_list f g = true ↔
  let index := bisect_left interval_list interval in
  (∃ p, (0 < index)%nat ∧ interval_list !! (index - 1)%nat = Some p
        ∧ overlaps interval p f g 1 1 = true)
  ∨ (∃ p, interval_list !! index = Some p ∧ overlaps interval p f g 1 1 = true).
Proof.
  unfold interval_overlaps_interval_list. cbv zeta.
  set (index := bisect_left interval_list interval).
  destruct (Nat.ltb_spec 0 index) as [H0 | H0]; simpl.
  - destruct (interval_list !! (index - 1)%nat) as [p |] eqn:Hp.
    + destruct (overlaps interval p f g 1 1) eqn:Hov; [split; eauto |].
      destruct (Nat.ltb_spec index (List.length interval_list)) as [Hi | Hi]; simpl.
      * destruct (interval_list !! index) as [p' |] eqn:Hp'.
        -- destruct (overlaps interval p' f g 1 1) eqn:Hov'; [split; eauto |].
           split; [done |]. intros [(? & _ & ? & ?) | (? & ? & ?)]; congruence.
        -- split; [done |]. intros [(? & _ & ? & ?) | (? & ? & ?)]; congruence.
      * apply lookup_ge_None in Hi. rewrite Hi.
        split; [done |]. intros [(? & _ & ? & ?) | (? & ? & ?)]; congruence.
    + apply lookup_ge_None in Hp.
      assert (interval_list !! index = None) as Hn by (apply lookup_ge_None; lia).
      rewrite Hn, andb_false_r.
      split; [done |]. intros [(? & _ & ? & ?) | (? & ? & ?)]; congruence.
  - destruct (Nat.ltb_spec index (List.length interval_list)) as [Hi | Hi]; simpl.
    + destruct (interval_list !! index) as [p' |] eqn:Hp'.
      * destruct (overlaps interval p' f g 1 1) eqn:Hov'; [split; eauto |].
        split; [done |]. intros [(? & ? & _) | (? & ? & ?)]; [lia | congruence].
      * split; [done |]. intros [(? & ? & _) | (? & ? & ?)]; [lia | congruence].
    + apply lookup_ge_None in Hi. rewrite Hi.
      split; [done |]. intros [(? & ? & _) | (? & ? & ?)]; [lia | congruence].
Qed.

Lemma plain_padded_call i : plain i → padded_call i.
Proof. intros (Hw & H0 & Hse & H9). unfold padded_call. lia. Qed.





(** ** [overlaps] under exchange of its arguments *)

(** The body never reads [min_overlap_length_self]. *)
Lemma overlaps_ignores_length_self a b f g x x' y :
  overlaps a b f g x y = overlaps a b f g x' y.
Proof. reflexivity. Qed.

(** The second threshold of the call is [max f y]; exchanged, it is
    [max g x]. *)
Lemma overlaps_swap_same_threshold a b f g x y :
  Qmaxb f (inject_Z y) = Qmaxb g (inject_Z x) →
  overlaps a b f g x y = overlaps b a g f y x.
Proof.
  intros Hth. unfold overlaps. rewrite (String.eqb_sym (chrom b) (chrom a)).
  rewrite (Z.min_comm (end_ b + wiggle b)), (Z.max_comm (start b - wiggle b)).
  rewrite Hth, !Qle_bool_Qmaxb.
  destruct (negb (chrom a =? chrom b)%string); [done |].
  destruct (_ <=? _); [done |].
  f_equal. apply andb_comm.
Qed.

(** C3 at a failing input.  With [f = g = 1/2], [x = 1] and [y = 100] the
    call [overlaps(a, b, f, g, x, y)] answers false and the exchanged call
    [overlaps(b, a, g, f, y, x)] answers true: line 98 compares the
    overlap with [max(min_fraction_self, min_overlap_length_other)]. *)
Theorem overlaps_swap_differs :
  overlaps c3_a c3_b (1 # 2) (1 # 2) 1 100 = false
  ∧ overlaps c3_b c3_a (1 # 2) (1 # 2) 100 1 = true.
Proof. split; reflexivity. Qed.

(** ** [fix_pos] *)

Lemma fix_pos_imprecise self :
  sv_type self = "INS"%string → is_precise self = false →
  start (fix_pos self) = start self
  ∧ end_ (fix_pos self) = start self
  ∧ cipos (fix_pos self) = ["0"; "0"]%string.
Proof.
  intros Ht Hp. unfold fix_pos. rewrite Ht, Hp. simpl.
  by rewrite Z.sub_diag.
Qed.

Lemma fix_pos_precise self :
  sv_type self = "INS"%string → is_precise self = true →
  start (fix_pos self) = (start self + end_ self) / 2
  ∧ end_ (fix_pos self) = (start self + end_ self) / 2
  ∧ cipos (fix_pos self) = cipos self.
Proof. intros Ht Hp. unfold fix_pos. by rewrite Ht, Hp. Qed.

(** C2 at a failing input.  For the imprecise insertion with [start = 100]
    and [end = 108], [fix_pos] sets [end] to [100] and then formats
    [end - start] of the updated interval: the recorded pair is
    [("0", "0")], not [("0", "8")]. *)
Theorem fix_pos_records_zero_width :
  let self := leaf "1" 100 108 0 "ins" "INS" "BreakDancer" in
  is_precise self = false
  ∧ end_ (fix_pos self) = 100
  ∧ cipos (fix_pos self) = ["0"; "0"]%string
  ∧ cipos (fix_pos self) ≠ ["0"%string; format_d (108 - 100)].
Proof. repeat split. discriminate. Qed.

(** ** [get_start] and [get_end] over the tree of sub-intervals *)

(** Induction on an interval with the property assumed of its children. *)
Lemma SVInterval_sub_ind (P : SVInterval → Prop) :
  (∀ i, Forall P (sub_intervals i) → P i) → ∀ i, P i.
Proof.
  intros Hstep. fix IH 1. intros i. apply Hstep.
  destruct i as [c s e n t len inf src g w subs p v vi cp ce nat_]. simpl.
  induction subs as [| x subs IHsubs]; constructor; [apply IH | exact IHsubs].
Qed.

Lemma fold_min_le l a :
  fold_left Z.min l a ≤ a ∧ Forall (λ x, fold_left Z.min l a ≤ x) l.
Proof.
  revert a. induction l as [| x l IH]; intros a; simpl; [split; [lia | constructor] |].
  destruct (IH (Z.min a x)) as [H1 H2]. split; [lia |].
  constructor; [lia | done].
Qed.

Lemma fold_min_in l a : fold_left Z.min l a = a ∨ fold_left Z.min l a ∈ l.
Proof.
  revert a. induction l as [| x l IH]; intros a; simpl; [by left |].
  destruct (IH (Z.min a x)) as [H | H]; [| right; set_solver].
  rewrite H. destruct (Z.min_spec a x) as [[_ ->] | [_ ->]]; [by left | right; set_solver].
Qed.

Lemma fold_max_ge l a :
  a ≤ fold_left Z.max l a ∧ Forall (λ x, x ≤ fold_left Z.max l a) l.
Proof.
  revert a. induction l as [| x l IH]; intros a; simpl; [split; [lia | constructor] |].
  destruct (IH (Z.max a x)) as [H1 H2]. split; [lia |].
  constructor; [lia | done].
Qed.

Lemma fold_max_in l a : fold_left Z.max l a = a ∨ fold_left Z.max l a ∈ l.
Proof.
  revert a. induction l as [| x l IH]; intros a; simpl; [by left |].
  destruct (IH (Z.max a x)) as [H | H]; [| right; set_solver].
  rewrite H. destruct (Z.max_spec a x) as [[_ ->] | [_ ->]]; [right; set_solver | by left].
Qed.

Lemma elem_of_map {A B} (f : A → B) l y : y ∈ map f l ↔ ∃ k, y = f k ∧ k ∈ l.
Proof.
  rewrite list_elem_of_In, in_map_iff. setoid_rewrite list_elem_of_In. naive_solver.
Qed.

Lemma elem_of_concat_map {A B} (f : A → list B) l x :
  x ∈ concat (map f l) ↔ ∃ k, k ∈ l ∧ x ∈ f k.
Proof.
  rewrite list_elem_of_In, in_concat. setoid_rewrite in_map_iff.
  setoid_rewrite list_elem_of_In. naive_solver.
Qed.

Lemma leaves_of_child i c x :
  c ∈ sub_intervals i → x ∈ leaves c → x ∈ leaves i.
Proof.
  intros Hc Hx. destruct i as [? ? ? ? ? ? ? ? ? ? subs ? ? ? ? ? ?]. simpl in *.
  destruct subs as [| c0 subs]; [by apply elem_of_nil in Hc |].
  apply elem_of_concat_map. by exists c.
Qed.

(** [get_start] is the least [start] among the leaves, [get_end] the
    greatest [end]; no wiggle enters either. *)
Lemma get_start_least i :
  Forall (λ x, get_start i ≤ start x) (leaves i)
  ∧ ∃ x, x ∈ leaves i ∧ start x = get_start i.
Proof.
  induction i as [i IH] using SVInterval_sub_ind.
  destruct i as [c s e n t len inf src g w subs p v vi cp ce nat_]. simpl in *.
  destruct subs as [| c0 subs].
  { simpl. split; [constructor; [simpl; lia | constructor] |].
    exists (mkSV c s e n t len inf src g w [] p v vi cp ce nat_).
    split; [set_solver | done]. }
  set (m := fold_left Z.min (map get_start subs) (get_start c0)).
  rewrite Forall_forall in IH.
  assert (∀ k, k ∈ c0 :: subs → m ≤ get_start k) as Hm.
  { intros k Hk. destruct (fold_min_le (map get_start subs) (get_start c0)) as [H1 H2].
    apply elem_of_cons in Hk as [-> | Hk]; [done |].
    rewrite Forall_forall in H2. apply H2. apply elem_of_map. by exists k. }
  split.
  - apply Forall_forall. intros x Hx.
    apply elem_of_concat_map in Hx as (k & Hk & Hx).
    destruct (IH k Hk) as [Hall _]. rewrite Forall_forall in Hall.
    specialize (Hall x Hx). specialize (Hm k Hk). lia.
  - assert (∃ k, k ∈ c0 :: subs ∧ get_start k = m) as (k & Hk & Hkm).
    { destruct (fold_min_in (map get_start subs) (get_start c0)) as [H | H].
      - exists c0. split; [set_solver | done].
      - apply elem_of_map in H as (k & Hk1 & Hk2). exists k. split; [set_solver | done]. }
    destruct (IH k Hk) as [_ (x & Hx & Hsx)]. exists x. split; [| lia].
    apply elem_of_concat_map. by exists k.
Qed.

Lemma get_end_greatest i :
  Forall (λ x, end_ x ≤ get_end i) (leaves i)
  ∧ ∃ x, x ∈ leaves i ∧ end_ x = get_end i.
Proof.
  induction i as [i IH] using SVInterval_sub_ind.
  destruct i as [c s e n t len inf src g w subs p v vi cp ce nat_]. simpl in *.
  destruct subs as [| c0 subs].
  { simpl. split; [constructor; [simpl; lia | constructor] |].
    exists (mkSV c s e n t len inf src g w [] p v vi cp ce nat_).
    split; [set_solver | done]. }
  set (m := fold_left Z.max (map get_end subs) (get_end c0)).
  rewrite Forall_forall in IH.
  assert (∀ k, k ∈ c0 :: subs → get_end k ≤ m) as Hm.
  { intros k Hk. destruct (fold_max_ge (map get_end subs) (get_end c0)) as [H1 H2].
    apply elem_of_cons in Hk as [-> | Hk]; [done |].
    rewrite Forall_forall in H2. apply H2. apply elem_of_map. by exists k. }
  split.
  - apply Forall_forall. intros x Hx.
    apply elem_of_concat_map in Hx as (k & Hk & Hx).
    destruct (IH k Hk) as [Hall _]. rewrite Forall_forall in Hall.
    specialize (Hall x Hx). specialize (Hm k Hk). lia.
  - assert (∃ k, k ∈ c0 :: subs ∧ get_end k = m) as (k & Hk & Hkm).
    { destruct (fold_max_in (map get_end subs) (get_end c0)) as [H | H].
      - exists c0. split; [set_solver | done].
      - apply elem_of_map in H as (k & Hk1 & Hk2). exists k. split; [set_solver | done]. }
    destruct (IH k Hk) as [_ (x & Hx & Hsx)]. exists x. split; [| lia].
    apply elem_of_concat_map. by exists k.
Qed.

(** ** [do_validation] *)

Section ValidationFacts.

Variable list_of_set : gset string → list string.
Hypothesis list_of_set_spec : ∀ (s : gset string) (x : string),
  x ∈ list_of_set s ↔ x ∈ s.

Lemma first_source_singleton i s :
  sources i = {[s]} → first_source list_of_set i = Ok s.
Proof.
  intros Hs. unfold first_source.
  destruct (list_of_set (sources i)) as [| x l] eqn:Hl.
  - assert (s ∈ list_of_set (sources i)) as H by (apply list_of_set_spec; set_solver).
    rewrite Hl in H. by apply elem_of_nil in H.
  - assert (x ∈ sources i) as H by (apply list_of_set_spec; rewrite Hl; set_solver).
    rewrite Hs in H. apply elem_of_singleton in H. by subst.
Qed.

Lemma first_source_empty i :
  sources i = ∅ → first_source list_of_set i = Raise IndexError.
Proof.
  intros Hs. unfold first_source.
  destruct (list_of_set (sources i)) as [| x l] eqn:Hl; [done |].
  assert (x ∈ sources i) as H by (apply list_of_set_spec; rewrite Hl; set_solver).
  rewrite Hs in H. by apply not_elem_of_empty in H.
Qed.

(** The fields the priority loop and the length fallback leave alone. *)
Lemma validate_loop_frame srcs self lists pm r :
  start (validate_loop srcs self lists pm r) = start self
  ∧ end_ (validate_loop srcs self lists pm r) = end_ self
  ∧ sv_type (validate_loop srcs self lists pm r) = sv_type self
  ∧ sub_intervals (validate_loop srcs self lists pm r) = sub_intervals self.
Proof.
  induction srcs as [| source srcs IH]; simpl; [done |].
  destruct (lists !!! source) as [| child [| ? ?]]; try exact IH.
  destruct (qualifies self child pm r); [done | exact IH].
Qed.

Lemma length_loop_frame srcs self lists :
  start (length_loop srcs self lists) = start self
  ∧ end_ (length_loop srcs self lists) = end_ self
  ∧ is_validated (length_loop srcs self lists) = is_validated self
  ∧ is_precise (length_loop srcs self lists) = is_precise self
  ∧ validating_interval (length_loop srcs self lists) = validating_interval self.
Proof.
  induction srcs as [| source srcs IH]; simpl; [done |].
  destruct (bool_decide (source ∈ sources self)); [| exact IH].
  destruct (lists !!! source) as [| first ?]; [exact IH |].
  destruct (0 <? length first); [done | exact IH].
Qed.

Lemma adopt_validating_flags self lists :
  is_validated (adopt_validating self lists) = is_validated self
  ∧ is_precise (adopt_validating self lists) = is_precise self
  ∧ validating_interval (adopt_validating self lists) = validating_interval self.
Proof.
  unfold adopt_validating. destruct (is_validated self) eqn:Hv; cbn [negb andb]; [| done].
  destruct (is_precise self) eqn:Hp; [| done].
  destruct (validating_interval self) as [v |] eqn:Hvi; [| done].
  match goal with |- context [if ?c then _ else _] => destruct c end.
  - match goal with |- context [length_loop ?s ?x ?l] =>
      destruct (length_loop_frame s x l) as (_ & _ & -> & -> & ->) end. done.
  - done.
Qed.

(** The bounds after lines 150-165. *)
Lemma adopt_validating_bounds self lists :
  match is_validated self && is_precise self, validating_interval self with
  | true, Some v =>
      start (adopt_validating self lists) = start v
      ∧ end_ (adopt_validating self lists) = end_ v
  | _, _ =>
      start (adopt_validating self lists) = start self
      ∧ end_ (adopt_validating self lists) = end_ self
  end.
Proof.
  unfold adopt_validating. destruct (is_validated self) eqn:Hv; cbn [negb andb]; [| done].
  destruct (is_precise self) eqn:Hp; [| by destruct (validating_interval self)].
  destruct (validating_interval self) as [v |] eqn:Hvi; [| done].
  match goal with |- context [if ?c then _ else _] => destruct c end.
  - match goal with |- context [length_loop ?s ?x ?l] =>
      destruct (length_loop_frame s x l) as (-> & -> & _) end. done.
  - done.
Qed.

Lemma recompute_bounds_fields self :
  start (recompute_bounds self) = get_start self
  ∧ end_ (recompute_bounds self) = get_end self
  ∧ sv_type (recompute_bounds self) = sv_type self
  ∧ sub_intervals (recompute_bounds self) = sub_intervals self
  ∧ sources (recompute_bounds self) = sources self
  ∧ is_validated (recompute_bounds self) = is_validated self
  ∧ is_precise (recompute_bounds self) = is_precise self
  ∧ validating_interval (recompute_bounds self) = validating_interval self.
Proof. by destruct self. Qed.

(** C7, as the code has it.  On a leaf whose [sources] is the single tool
    [s] and whose [is_validated] is false, [do_validation] returns and
    leaves [is_validated] false.  When [sv_type] is one of
    [svs_of_interest], [is_precise] becomes whether [s] is one of
    [precise_sv_sources]; for any other [sv_type] the method returns at
    line 122 and [is_precise] keeps its value. *)
Theorem do_validation_leaf (self : SVInterval) (overlap_ratio : Q) (s : string) :
  sub_intervals self = [] → is_validated self = false → sources self = {[s]} →
  ∃ self', do_validation list_of_set self overlap_ratio = Ok self'
    ∧ is_validated self' = false
    ∧ is_precise self' =
        if str_in (sv_type self) svs_of_interest
        then str_in s precise_sv_sources
        else is_precise self.
Proof.
  intros Hsub Hv Hs. unfold do_validation.
  destruct (recompute_bounds_fields self) as (_ & _ & Ht & Hsb & Hsrc & Hva & Hpr & _).
  rewrite Ht, Hsb, Hsub.
  destruct (str_in (sv_type self) svs_of_interest); cbn [negb].
  - rewrite (first_source_singleton _ s) by congruence.
    eexists. split; [reflexivity |].
    cbn [is_validated is_precise set_is_precise]. by rewrite Hva.
  - eexists. split; [reflexivity |]. by rewrite Hva, Hpr.
Qed.

(** C9, as the code has it.  [__init__] checks nothing: for every argument
    tuple it returns an interval that carries the [sources] it was given,
    the empty set included.  An empty [sources] first raises, as
    [IndexError], when [do_validation] reads [list(self.sources)[0]] on
    such a leaf whose [sv_type] is one of [svs_of_interest]. *)
Theorem init_accepts_any_sources (c : string) (s e : Z)
    (n : option string) (t : string) (len : Z) (srcs : gset string)
    (g : string) (w : Z) (inf : option (list (string * string)))
    (cp ce : list string) (nat_ : option string) (overlap_ratio : Q) :
  ∃ self,
    __init__ c s e n t len srcs g w inf cp ce nat_ = Ok self
    ∧ sources self = srcs
    ∧ (srcs = ∅ → str_in t svs_of_interest = true →
       do_validation list_of_set self overlap_ratio = Raise IndexError).
Proof.
  eexists. split; [reflexivity |]. split; [done |].
  intros -> Ht. unfold do_validation.
  match goal with |- context [recompute_bounds ?x] =>
    destruct (recompute_bounds_fields x) as (_ & _ & Ht' & Hsb & Hsrc & _) end.
  rewrite Ht', Hsb. cbn [sv_type sub_intervals]. rewrite Ht. cbn [negb].
  by rewrite first_source_empty.
Qed.

(** *** The per-tool lists *)

Lemma empty_lists_lookup_total s : empty_lists !!! s = [].
Proof.
  unfold empty_lists, sv_sources. cbn [fmap list_fmap list_to_map foldr uncurry fst snd].
  rewrite lookup_total_alt.
  repeat (rewrite lookup_insert; case_decide; [done |]).
  by rewrite lookup_empty.
Qed.

Lemma empty_lists_keys s : s ∈ sv_sources → is_Some (empty_lists !! s).
Proof.
  unfold empty_lists, sv_sources. cbn [fmap list_fmap list_to_map foldr uncurry fst snd].
  intros Hs. repeat (apply elem_of_cons in Hs as [-> | Hs]; [by exists [] |]).
  by apply elem_of_nil in Hs.
Qed.

(** After the loop of lines 135-137, [lists[s]] holds, in order, the
    children whose first source is [s]. *)
Lemma fill_lists_spec subs : ∀ m m',
  fill_lists list_of_set subs m = Ok m' →
  ∀ s, m' !!! s = m !!! s ++ children_of list_of_set s subs.
Proof.
  induction subs as [| i subs IH]; intros m m' Hrun s; simpl in Hrun.
  { simplify_eq. by rewrite app_nil_r. }
  unfold children_of. cbn [List.filter]. unfold from_source at 1.
  destruct (first_source list_of_set i) as [s0 | e] eqn:Hfs; [| done].
  simpl in Hrun. destruct (m !! s0) as [l |] eqn:Hl; [| done].
  rewrite (IH _ _ Hrun s).
  destruct (String.eqb_spec s0 s) as [-> | Hne].
  - rewrite lookup_total_insert_eq, (lookup_total_correct m s l Hl).
    by rewrite <- app_assoc.
  - by rewrite lookup_total_insert_ne.
Qed.

Lemma fill_lists_returns subs : ∀ m,
  (∀ s, s ∈ sv_sources → is_Some (m !! s)) →
  Forall (known_source list_of_set) subs → ∃ m', fill_lists list_of_set subs m = Ok m'.
Proof.
  induction subs as [| i subs IH]; intros m Hkeys Hsubs; simpl; [eauto |].
  apply Forall_cons in Hsubs as [Hi Hsubs]. destruct Hi as (s & Hs & Hin).
  rewrite Hs. simpl. destruct (Hkeys s Hin) as [l Hl]. rewrite Hl.
  apply IH; [| done].
  intros s' Hs'. rewrite lookup_insert. case_decide; [eauto | by apply Hkeys].
Qed.

Lemma precise_children_returns subs :
  Forall (known_source list_of_set) subs →
  ∃ pc, precise_children list_of_set subs = Ok pc ∧ pc ⊆ subs.
Proof.
  induction 1 as [| i subs Hi _ IH]; simpl.
  { exists []. split; [done |]. by intros x Hx. }
  destruct Hi as (s & Hs & _). destruct IH as (pc & Hpc & Hsub).
  rewrite Hs, Hpc. cbn [mbind result_bind].
  destruct (str_in s precise_sv_sources).
  - exists (i :: pc). split; [done |]. intros x [-> | Hx]%elem_of_cons.
    + by left.
    + right. by apply Hsub.
  - exists pc. split; [done |]. intros x Hx. right. by apply Hsub.
Qed.

(** *** The priority loop *)

(** The loop stops at the first tool of the list with exactly one call,
    that call passing the test of lines 142-144. *)
Lemma validate_loop_first before : ∀ s c after self lists pm r,
  lists !!! s = [c] → qualifies self c pm r = true →
  (∀ s' c', s' ∈ before → lists !!! s' = [c'] → qualifies self c' pm r = false) →
  validate_loop (before ++ s :: after) self lists pm r
  = set_is_precise
      (set_validating_interval
         (set_is_validated self (1 <? size (sources self))%nat) (Some c))
      (str_in s precise_sv_sources).
Proof.
  induction before as [| s0 before IH]; intros s c after self lists pm r Hs Hq Hnone;
    cbn [app validate_loop].
  - by rewrite Hs, Hq.
  - assert (∀ s' c', s' ∈ before → lists !!! s' = [c'] →
                      qualifies self c' pm r = false) as Hnone'.
    { intros s' c' Hs'. apply Hnone. by right. }
    destruct (lists !!! s0) as [| c0 [| c0' l0]] eqn:Hs0.
    + by apply IH.
    + rewrite (Hnone s0 c0); [by apply IH | by left | done].
    + by apply IH.
Qed.

Lemma sv_sources_NoDup : NoDup sv_sources.
Proof. by apply (bool_decide_unpack _). Qed.

(** C6, as the code has it.  Take a cluster whose [sv_type] is one of
    [svs_of_interest], whose children all come from recognised tools, and
    whose precise children [merge_intervals] merges into [pm].  If the
    tools [s1] and [s2], with [s1] earlier than [s2] in [sv_sources], each
    contribute exactly one child, both children pass the test of lines
    142-144, and no other tool does so, then [do_validation] returns
    and [validating_interval] is the child of [s1].  Nothing is assumed of
    the order of [sub_intervals]. *)
Theorem do_validation_priority (self : SVInterval) (overlap_ratio : Q)
    (pc pm : list SVInterval) (s1 s2 : string) (c1 c2 : SVInterval) (i1 i2 : nat) :
  str_in (sv_type self) svs_of_interest = true →
  Forall (known_source list_of_set) (sub_intervals self) →
  precise_children list_of_set (sub_intervals self) = Ok pc →
  merge_intervals pc = Ok pm →
  sv_sources !! i1 = Some s1 → sv_sources !! i2 = Some s2 → (i1 < i2)%nat →
  children_of list_of_set s1 (sub_intervals self) = [c1] →
  qualifies (recompute_bounds self) c1 pm overlap_ratio = true →
  children_of list_of_set s2 (sub_intervals self) = [c2] →
  qualifies (recompute_bounds self) c2 pm overlap_ratio = true →
  (∀ s c, s ∈ sv_sources → children_of list_of_set s (sub_intervals self) = [c] →
          qualifies (recompute_bounds self) c pm overlap_ratio = true →
          s = s1 ∨ s = s2) →
  ∃ self', do_validation list_of_set self overlap_ratio = Ok self'
           ∧ validating_interval self' = Some c1.
Proof.
  intros Ht Hknown Hpc Hpm Hi1 Hi2 Hlt Hc1 Hq1 Hc2 Hq2 Honly.
  destruct (fill_lists_returns (sub_intervals self) empty_lists empty_lists_keys Hknown)
    as [lists Hlists].
  assert (∀ s, lists !!! s = children_of list_of_set s (sub_intervals self)) as Hl.
  { intros s. rewrite (fill_lists_spec _ _ _ Hlists s).
    by rewrite empty_lists_lookup_total. }
  unfold do_validation.
  destruct (recompute_bounds_fields self) as (_ & _ & Ht' & Hsb & _).
  rewrite Ht', Hsb, Ht. cbn [negb].
  destruct (sub_intervals self) as [| x subs] eqn:Hsubs; [done |].
  rewrite Hpc. cbn [mbind result_bind]. rewrite Hpm, Hlists.
  eexists. split; [reflexivity |].
  match goal with |- context [adopt_validating ?v ?l] =>
    destruct (adopt_validating_flags v l) as (_ & _ & ->) end.
  rewrite <- (take_drop_middle sv_sources i1 s1 Hi1).
  rewrite (validate_loop_first _ s1 c1); [done | by rewrite Hl | done |].
  intros s' c' Hs' Hs'l. rewrite Hl in Hs'l.
  destruct (qualifies (recompute_bounds self) c' pm overlap_ratio) eqn:Hq; [| done].
  exfalso.
  apply list_elem_of_lookup_1 in Hs' as [j Hj].
  pose proof (lookup_lt_Some _ _ _ Hj) as Hjlt. rewrite length_take in Hjlt.
  rewrite lookup_take_lt in Hj by lia.
  assert (s' ∈ sv_sources) as Hin by (by eapply list_elem_of_lookup_2).
  destruct (Honly s' c' Hin Hs'l Hq) as [-> | ->].
  - pose proof (NoDup_lookup _ _ _ _ sv_sources_NoDup Hj Hi1). lia.
  - pose proof (NoDup_lookup _ _ _ _ sv_sources_NoDup Hj Hi2). lia.
Qed.

(** *** The bounds of a cluster *)

(** C8, as the code has it.  [do_validation] returns on a composite whose
    children come from recognised tools and carry names.  When it returns,
    [start] and [end] are the least [start] and the greatest [end] among
    the leaves below the cluster, wiggle not applied, unless the cluster
    ends validated and precise with a validating interval: then they are
    the [start] and [end] of that interval (lines 153-155). *)
Theorem do_validation_bounds (self : SVInterval) (overlap_ratio : Q) :
  sub_intervals self ≠ [] →
  (Forall (known_source list_of_set) (sub_intervals self) →
   Forall (λ i, is_Some (name i)) (sub_intervals self) →
   ∃ self', do_validation list_of_set self overlap_ratio = Ok self')
  ∧ (∀ self', do_validation list_of_set self overlap_ratio = Ok self' →
     least_start self (get_start self) ∧ greatest_end self (get_end self)
     ∧ match str_in (sv_type self) svs_of_interest
             && is_validated self' && is_precise self',
             validating_interval self' with
       | true, Some v => start self' = start v ∧ end_ self' = end_ v
       | _, _ => start self' = get_start self ∧ end_ self' = get_end self
       end).
Proof.
  intros Hcomp.
  destruct (recompute_bounds_fields self) as (Hst & Hen & Ht' & Hsb & _).
  split.
  - intros Hknown Hnamed. unfold do_validation. rewrite Ht', Hsb.
    destruct (str_in (sv_type self) svs_of_interest); cbn [negb]; [| eauto].
    destruct (sub_intervals self) as [| x subs] eqn:Hsubs; [done |].
    destruct (precise_children_returns _ Hknown) as (pc & Hpc & Hsub).
    rewrite Hpc. cbn [mbind result_bind].
    destruct (merge_intervals_returns pc) as [pm Hpm].
    { rewrite Forall_forall in Hnamed. apply Forall_forall. intros i Hi.
      apply Hnamed. by apply Hsub. }
    rewrite Hpm.
    destruct (fill_lists_returns _ empty_lists empty_lists_keys Hknown) as [lists Hl].
    rewrite Hl. eauto.
  - intros self' Hrun. split; [apply get_start_least |]. split; [apply get_end_greatest |].
    unfold do_validation in Hrun. rewrite Ht', Hsb in Hrun.
    destruct (str_in (sv_type self) svs_of_interest); cbn [negb andb] in *.
    2: { by simplify_eq. }
    destruct (sub_intervals self) as [| x subs] eqn:Hsubs; [done |].
    destruct (precise_children list_of_set (x :: subs)) as [pc | ?]; [| done].
    cbn [mbind result_bind] in Hrun.
    destruct (merge_intervals pc) as [pm | ?]; [| done].
    destruct (fill_lists list_of_set (x :: subs) empty_lists) as [lists | ?]; [| done].
    cbn [mbind result_bind] in Hrun.
    assert (self' = adopt_validating
                      (validate_loop sv_sources (recompute_bounds self) lists pm
                                     overlap_ratio) lists) as -> by congruence.
    match goal with |- context [adopt_validating ?v ?l] =>
      pose proof (adopt_validating_bounds v l) as Hb;
      destruct (adopt_validating_flags v l) as (Hf1 & Hf2 & Hf3);
      destruct (validate_loop_frame sv_sources (recompute_bounds self) lists pm
                  overlap_ratio) as (Hs1 & Hs2 & _)
    end.
    rewrite Hf1, Hf2, Hf3.
    rewrite Hs1, Hs2, Hst, Hen in Hb. exact Hb.
Qed.

End ValidationFacts.

(** ** [do_validation] on concrete clusters *)

Lemma sorted_elements_spec (s : gset string) (x : string) :
  x ∈ sorted_elements s ↔ x ∈ s.
Proof. apply elem_of_elements. Qed.

Lemma two_tool_cluster_merged :
  merge_intervals [breakdancer_call; pindel_call] = Ok [two_tool_cluster "DEL"].
Proof. vm_compute. reflexivity. Qed.

Lemma do_validation_priority_witness :
  ∃ self', do_validation sorted_elements (two_tool_cluster "DEL") (1 # 2) = Ok self'
           ∧ validating_interval self' = Some pindel_call.
Proof.
  apply (do_validation_priority sorted_elements (two_tool_cluster "DEL") (1 # 2)
           [pindel_call] [pindel_call] "Pindel" "BreakDancer"
           pindel_call breakdancer_call 0 3).
  - vm_compute. reflexivity.
  - repeat constructor.
    + exists "Pindel"%string. split; [vm_compute; reflexivity | set_solver].
    + exists "BreakDancer"%string. split; [vm_compute; reflexivity | set_solver].
  - vm_compute. reflexivity.
  - vm_compute. reflexivity.
  - reflexivity.
  - reflexivity.
  - lia.
  - vm_compute. reflexivity.
  - vm_compute. reflexivity.
  - vm_compute. reflexivity.
  - vm_compute. reflexivity.
  - intros s c Hs Hc _. unfold sv_sources in Hs.
    repeat (apply elem_of_cons in Hs as [-> | Hs]).
    + left; reflexivity.
    + vm_compute in Hc; discriminate Hc.
    + vm_compute in Hc; discriminate Hc.
    + right; reflexivity.
    + vm_compute in Hc; discriminate Hc.
    + exfalso. exact (proj1 (elem_of_nil s) Hs).
Defined.

(** A cluster whose [sv_type] is not one of [svs_of_interest]: both tools
    contribute one call that passes the test of lines 142-144, and
    [do_validation] returns at line 122 without a validating interval. *)
Lemma do_validation_no_priority_outside_interest :
  let self := two_tool_cluster "CTX" in
  children_of sorted_elements "Pindel" (sub_intervals self) = [pindel_call]
  ∧ children_of sorted_elements "BreakDancer" (sub_intervals self) = [breakdancer_call]
  ∧ precise_children sorted_elements (sub_intervals self) = Ok [pindel_call]
  ∧ merge_intervals [pindel_call] = Ok [pindel_call]
  ∧ qualifies (recompute_bounds self) pindel_call [pindel_call] (1 # 2) = true
  ∧ qualifies (recompute_bounds self) breakdancer_call [pindel_call] (1 # 2) = true
  ∧ ∃ self', do_validation sorted_elements self (1 # 2) = Ok self'
             ∧ validating_interval self' = None.
Proof.
  cbv zeta. repeat (split; [vm_compute; reflexivity |]).
  eexists. split; [vm_compute; reflexivity | reflexivity].
Qed.

Lemma do_validation_leaf_witness :
  ∃ self', do_validation sorted_elements pindel_call (1 # 2) = Ok self'
           ∧ is_validated self' = false ∧ is_precise self' = true.
Proof.
  apply (do_validation_leaf sorted_elements sorted_elements_spec pindel_call (1 # 2)
           "Pindel"); reflexivity.
Defined.

(** A leaf of a precise tool whose [sv_type] is not one of
    [svs_of_interest]: [is_precise] stays false. *)
Lemma do_validation_leaf_outside_interest :
  sub_intervals ctx_leaf = [] ∧ is_validated ctx_leaf = false
  ∧ sources ctx_leaf = {["Pindel"%string]}
  ∧ str_in "Pindel" precise_sv_sources = true
  ∧ ∃ self', do_validation sorted_elements ctx_leaf (1 # 2) = Ok self'
             ∧ is_precise self' = false.
Proof.
  repeat (split; [reflexivity |]).
  eexists. split; [vm_compute; reflexivity | reflexivity].
Qed.

(** Construction with no source succeeds. *)
Lemma init_accepts_empty_sources :
  ∃ self, __init__ "1" 100 200 (Some "a"%string) "DEL" 0 ∅ "./1" 0 None [] [] None
          = Ok self
          ∧ sources self = ∅.
Proof. eexists. split; reflexivity. Qed.

Lemma init_accepts_any_sources_witness :
  ∃ self, __init__ "1" 100 200 (Some "a"%string) "DEL" 0 ∅ "./1" 0 None [] [] None
          = Ok self
          ∧ sources self = ∅
          ∧ do_validation sorted_elements self (1 # 2) = Raise IndexError.
Proof.
  destruct (init_accepts_any_sources sorted_elements sorted_elements_spec
              "1" 100 200 (Some "a"%string) "DEL" 0 ∅ "./1" 0 None [] [] None (1 # 2))
    as (self & Hinit & Hsrc & Hraise).
  exists self. split; [exact Hinit |]. split; [exact Hsrc |].
  apply Hraise; reflexivity.
Defined.

Lemma do_validation_bounds_witness :
  ∃ self', do_validation sorted_elements (two_tool_cluster "DEL") (1 # 2) = Ok self'
           ∧ start self' = 100 ∧ end_ self' = 200.
Proof.
  assert (sub_intervals (two_tool_cluster "DEL") ≠ []) as Hcomp by discriminate.
  destruct (do_validation_bounds sorted_elements (two_tool_cluster "DEL") (1 # 2) Hcomp)
    as [Hret Hprop].
  destruct Hret as [self' Hrun].
  - repeat constructor.
    + exists "Pindel"%string. split; [vm_compute; reflexivity | set_solver].
    + exists "BreakDancer"%string. split; [vm_compute; reflexivity | set_solver].
  - repeat constructor; eexists; reflexivity.
  - exists self'. split; [exact Hrun |].
    destruct (Hprop self' Hrun) as (_ & _ & Hb).
    vm_compute in Hrun. injection Hrun as <-.
    vm_compute in Hb. vm_compute. exact Hb.
Defined.

(** Two clusters returned by [merge_intervals] on which the bounds after
    [do_validation] are not the wiggle-adjusted extremes of the leaves:
    one left unsnapped, whose bounds ignore the wiggle of its leaves, and
    one snapped to its validating interval. *)
Lemma do_validation_bounds_not_wiggle_adjusted :
  (merge_intervals [wide_breakdancer_call; wide_cnvnator_call] = Ok [wide_cluster]
   ∧ wiggle_adjusted_start wide_cluster = 90
   ∧ wiggle_adjusted_end wide_cluster = 260
   ∧ ∃ self', do_validation sorted_elements wide_cluster (1 # 2) = Ok self'
              ∧ start self' = 100 ∧ end_ self' = 250)
  ∧ (merge_intervals [breakdancer_call; pindel_call] = Ok [two_tool_cluster "DEL"]
     ∧ wiggle_adjusted_start (two_tool_cluster "DEL") = 100
     ∧ wiggle_adjusted_end (two_tool_cluster "DEL") = 210
     ∧ ∃ self', do_validation sorted_elements (two_tool_cluster "DEL") (1 # 2) = Ok self'
                ∧ start self' = 100 ∧ end_ self' = 200).
Proof.
  split.
  - repeat (split; [vm_compute; reflexivity |]).
    eexists. split; [vm_compute; reflexivity |]. split; reflexivity.
  - repeat (split; [vm_compute; reflexivity |]).
    eexists. split; [vm_compute; reflexivity |]. split; reflexivity.
Qed.

(** ** The clusters of [merge_intervals] *)

Lemma conflict_same_chrom a b :
  overlaps_default a b || is_adjacent a b 0 = true → chrom a = chrom b.
Proof.
  intros [H | H]%orb_true_iff.
  - unfold overlaps_default, overlaps in H.
    destruct (String.eqb_spec (chrom a) (chrom b)); done.
  - by apply is_adjacent_true_iff in H as [? _].
Qed.

Lemma cluster_ok_leaf c : is_leaf c → cluster_ok c.
Proof.
  unfold is_leaf, cluster_ok, same_chrom, envelope, provenance, two_level.
  intros ->. repeat split; try constructor; done.
Qed.

(** The first pairing of two childless calls. *)
Lemma set_merged_cluster_ok cur next new :
  is_leaf cur → is_leaf next → chrom cur = chrom next →
  set_merged SVInterval_default cur next = Ok new →
  cluster_ok new ∧ sub_intervals new = [cur; next].
Proof.
  intros Hc Hn Hchr. unfold set_merged.
  destruct (concat_names (name cur) (name next)) as [n | e]; [| done].
  intros H. cbn [mbind result_bind] in H. injection H as <-.
  split; [| done].
  unfold cluster_ok, same_chrom, envelope, provenance, two_level.
  cbn [sub_intervals chrom start end_ sources length wiggle is_precise is_validated
       validating_interval SVInterval_default].
  split; [by repeat constructor |].
  split.
  { intros _. split; [repeat constructor; lia |]. split.
    - destruct (Z.min_spec (start cur - wiggle cur) (start next - wiggle next))
        as [[_ ->] | [_ ->]]; [by left | right; by left].
    - split; [repeat constructor; lia |].
      destruct (Z.max_spec (end_ cur + wiggle cur) (end_ next + wiggle next))
        as [[_ ->] | [_ ->]]; [right; by left | by left]. }
  split.
  { intros _. split; [simpl; set_solver |]. split; [repeat constructor; lia |].
    destruct (Z.max_spec (length cur) (length next)) as [[_ ->] | [_ ->]];
      [right; by left | by left]. }
  intros _. split; [simpl; lia |]. split; [by repeat constructor | done].
Qed.

(** The absorption of one more childless call. *)
Lemma merge_cluster_ok cur next new :
  sub_intervals cur ≠ [] → cluster_ok cur → is_leaf next → chrom cur = chrom next →
  merge cur next = Ok new →
  cluster_ok new ∧ sub_intervals new = sub_intervals cur ++ [next].
Proof.
  intros Hne (Hch & Henv & Hprov & Htwo) Hn Hchr. unfold merge.
  destruct (concat_names (name cur) (name next)) as [n | e]; [| done].
  intros H. cbn [mbind result_bind] in H. injection H as <-.
  split; [| done].
  destruct (Henv Hne) as (Hs1 & Hs2 & He1 & He2).
  destruct (Hprov Hne) as (Hsrc & Hl1 & Hl2).
  destruct (Htwo Hne) as (Hlen & Hleaf & Hw & Hfl).
  unfold cluster_ok, same_chrom, envelope, provenance, two_level.
  cbn [sub_intervals chrom start end_ sources length wiggle is_precise is_validated
       validating_interval].
  split; [apply Forall_app; split; [done | by repeat constructor] |].
  split.
  { intros _. split.
    { apply Forall_app. split; [| repeat constructor; lia].
      eapply Forall_impl; [exact Hs1 |]. intros m Hm. simpl in Hm. lia. }
    split.
    { apply Exists_app.
      destruct (Z.min_spec (start cur) (start next - wiggle next)) as [[_ ->] | [_ ->]];
        [by left | right; by left]. }
    split.
    { apply Forall_app. split; [| repeat constructor; lia].
      eapply Forall_impl; [exact He1 |]. intros m Hm. simpl in Hm. lia. }
    apply Exists_app.
    destruct (Z.max_spec (end_ cur) (end_ next + wiggle next)) as [[_ ->] | [_ ->]];
      [right; by left | by left]. }
  split.
  { intros _. split.
    { rewrite map_app, Hsrc. simpl.
      rewrite union_list_app_L. simpl. set_solver. }
    split.
    { apply Forall_app. split; [| repeat constructor; lia].
      eapply Forall_impl; [exact Hl1 |]. intros m Hm. simpl in Hm. lia. }
    apply Exists_app.
    destruct (Z.max_spec (length cur) (length next)) as [[_ ->] | [_ ->]];
      [right; by left | by left]. }
  intros _. split; [rewrite length_app; simpl; lia |].
  split; [apply Forall_app; split; [done | by repeat constructor] | done].
Qed.

Lemma merge_loop_clusters rest : ∀ cur acc r,
  merge_loop cur rest acc = Ok r →
  Forall is_leaf rest → cluster_ok cur → Forall cluster_ok acc →
  Forall cluster_ok r
  ∧ flat_map members r = flat_map members acc ++ members cur ++ rest.
Proof.
  induction rest as [| next rest IH]; intros cur acc r Hrun Hrest Hcur Hacc;
    cbn [merge_loop] in Hrun.
  { assert (r = acc ++ [cur]) as -> by congruence. split.
    - apply Forall_app. split; [done | by constructor].
    - rewrite flat_map_app. simpl. by rewrite !app_nil_r. }
  apply Forall_cons in Hrest as [Hnext Hrest].
  destruct (overlaps_default cur next || is_adjacent cur next 0) eqn:Hconf.
  - pose proof (conflict_same_chrom cur next Hconf) as Hchr.
    destruct (sub_intervals cur) as [| c0 subs] eqn:Hsubs.
    + destruct (set_merged SVInterval_default cur next) as [new | e] eqn:Hnew; [| done].
      cbn [mbind result_bind] in Hrun.
      destruct (set_merged_cluster_ok cur next new Hsubs Hnext Hchr Hnew) as [Hok Hsn].
      destruct (IH new acc r Hrun Hrest Hok Hacc) as [Hr Hflat].
      split; [done |]. rewrite Hflat. unfold members. by rewrite Hsn, Hsubs.
    + destruct (merge cur next) as [new | e] eqn:Hnew; [| done].
      cbn [mbind result_bind] in Hrun.
      assert (sub_intervals cur ≠ []) as Hne by (by rewrite Hsubs).
      destruct (merge_cluster_ok cur next new Hne Hcur Hnext Hchr Hnew) as [Hok Hsn].
      destruct (IH new acc r Hrun Hrest Hok Hacc) as [Hr Hflat].
      split; [done |]. rewrite Hflat. unfold members. rewrite Hsn, Hsubs.
      f_equal. simpl. by rewrite <- app_assoc.
  - destruct (IH next (acc ++ [cur]) r Hrun Hrest (cluster_ok_leaf next Hnext))
      as [Hr Hflat].
    { apply Forall_app. split; [done | by constructor]. }
    split; [done |]. rewrite Hflat, flat_map_app. simpl. rewrite app_nil_r.
    unfold members at 3. rewrite Hnext. by rewrite <- !app_assoc.
Qed.

Lemma merge_intervals_clusters l r :
  Forall is_leaf l → merge_intervals l = Ok r →
  Forall cluster_ok r ∧ flat_map members r ≡ₚ l.
Proof.
  intros Hl [[Hs ->] | (first & rest & m & Hsort & Hrun & ->)]%merge_intervals_Ok_inv.
  { split; [constructor |]. simpl. rewrite <- (sort_perm l), Hs. done. }
  assert (Forall is_leaf (first :: rest)) as Hleaf by (by rewrite <- Hsort, sort_perm).
  apply Forall_cons in Hleaf as [Hf Hrest].
  destruct (merge_loop_clusters rest first [] m Hrun Hrest (cluster_ok_leaf _ Hf))
    as [Hok Hflat]; [constructor |].
  split; [by rewrite sort_perm |].
  rewrite (Permutation_flat_map members (sort_perm m)), Hflat. simpl.
  unfold members. rewrite Hf. simpl. by rewrite <- Hsort, sort_perm.
Qed.

(** X1.  On a list of calls without children, [merge_intervals] loses and
    duplicates nothing: the calls the returned elements stand for, taken
    together, are the input calls, each as often as it was given. *)
Theorem merge_intervals_keeps_every_call (l r : list SVInterval) :
  Forall is_leaf l → merge_intervals l = Ok r → flat_map members r ≡ₚ l.
Proof. intros Hl Hr. by destruct (merge_intervals_clusters l r Hl Hr). Qed.

Lemma c1_plain_run : merge_intervals c1_plain_input = Ok c1_plain_merged.
Proof. vm_compute. reflexivity. Qed.

Lemma c1_plain_leaves : Forall is_leaf c1_plain_input.
Proof. by repeat constructor. Qed.

Lemma merge_intervals_keeps_every_call_witness :
  flat_map members c1_plain_merged ≡ₚ c1_plain_input.
Proof.
  exact (merge_intervals_keeps_every_call c1_plain_input c1_plain_merged
           c1_plain_leaves c1_plain_run).
Defined.

(** X2.  On a list of calls without children, every child of a returned
    cluster lies on the chromosome of the cluster: no cluster spans two
    chromosomes. *)
Theorem merge_intervals_one_chromosome (l r : list SVInterval) :
  Forall is_leaf l → merge_intervals l = Ok r → Forall same_chrom r.
Proof.
  intros Hl Hr. destruct (merge_intervals_clusters l r Hl Hr) as [Hok _].
  eapply Forall_impl; [exact Hok |]. by intros c (? & _).
Qed.

Lemma merge_intervals_one_chromosome_witness : Forall same_chrom c1_plain_merged.
Proof.
  exact (merge_intervals_one_chromosome c1_plain_input c1_plain_merged
           c1_plain_leaves c1_plain_run).
Defined.

(** X3.  On a list of calls without children, the [start] of every
    returned cluster is the least [start - wiggle] of its children and its
    [end] the greatest [end + wiggle]. *)
Theorem merge_intervals_envelope (l r : list SVInterval) :
  Forall is_leaf l → merge_intervals l = Ok r → Forall envelope r.
Proof.
  intros Hl Hr. destruct (merge_intervals_clusters l r Hl Hr) as [Hok _].
  eapply Forall_impl; [exact Hok |]. by intros c (_ & ? & _).
Qed.

Lemma merge_intervals_envelope_witness : Forall envelope c1_plain_merged.
Proof.
  exact (merge_intervals_envelope c1_plain_input c1_plain_merged
           c1_plain_leaves c1_plain_run).
Defined.

(** X4.  On a list of calls without children, the [sources] of every
    returned cluster is the union of the sources of its children, and its
    [length] is the greatest [length] among them. *)
Theorem merge_intervals_provenance (l r : list SVInterval) :
  Forall is_leaf l → merge_intervals l = Ok r → Forall provenance r.
Proof.
  intros Hl Hr. destruct (merge_intervals_clusters l r Hl Hr) as [Hok _].
  eapply Forall_impl; [exact Hok |]. by intros c (_ & _ & ? & _).
Qed.

Lemma merge_intervals_provenance_witness : Forall provenance c1_plain_merged.
Proof.
  exact (merge_intervals_provenance c1_plain_input c1_plain_merged
           c1_plain_leaves c1_plain_run).
Defined.

(** X5.  On a list of calls without children, a returned cluster that has
    children has at least two, none of them has children of its own, and
    the cluster carries wiggle 0, [is_precise] and [is_validated] false and
    no validating interval: merging sets no validation state. *)
Theorem merge_intervals_two_level (l r : list SVInterval) :
  Forall is_leaf l → merge_intervals l = Ok r → Forall two_level r.
Proof.
  intros Hl Hr. destruct (merge_intervals_clusters l r Hl Hr) as [Hok _].
  eapply Forall_impl; [exact Hok |]. by intros c (_ & _ & _ & ?).
Qed.

Lemma merge_intervals_two_level_witness : Forall two_level c1_plain_merged.
Proof.
  exact (merge_intervals_two_level c1_plain_input c1_plain_merged
           c1_plain_leaves c1_plain_run).
Defined.

(** ** [merge_intervals] and the order of its input *)

Lemma sort_unique l1 l2 : l1 ≡ₚ l2 → no_ties l1 → sort l1 = sort l2.
Proof.
  intros Hp Hties.
  apply (StronglySorted_unique_strong precedes).
  - intros x y Hx Hy. apply Hties.
    + by rewrite <- (sort_perm l1).
    + by rewrite Hp, <- (sort_perm l2).
  - apply sort_sorted.
  - apply sort_sorted.
  - by rewrite !sort_perm.
Qed.

(** X6.  Two arrangements of the same calls, no two of which tie in the
    total order, give the same run of [merge_intervals]: the same result
    or exception, and the same contents of the argument list afterwards. *)
Theorem merge_intervals_order_invariant (l1 l2 : list SVInterval) :
  l1 ≡ₚ l2 → no_ties l1 → merge_intervals_run l1 = merge_intervals_run l2.
Proof.
  intros Hp Hties. unfold merge_intervals_run.
  by rewrite (sort_unique l1 l2 Hp Hties).
Qed.

Lemma c10_input_no_ties : no_ties c10_input.
Proof.
  intros x y Hx Hy. unfold c10_input in *.
  repeat (apply elem_of_cons in Hx as [-> | Hx]);
    repeat (apply elem_of_cons in Hy as [-> | Hy]);
    try (exfalso; exact (proj1 (elem_of_nil _) Hx));
    try (exfalso; exact (proj1 (elem_of_nil _) Hy));
    try reflexivity; unfold precedes; intros H1 H2;
    (vm_compute in H1; discriminate H1) || (vm_compute in H2; discriminate H2).
Qed.

Lemma merge_intervals_order_invariant_witness :
  merge_intervals_run c10_input = merge_intervals_run (rev c10_input).
Proof.
  apply (merge_intervals_order_invariant c10_input (rev c10_input)).
  - apply Permutation_rev.
  - exact c10_input_no_ties.
Defined.

(** With a tie the arrangement shows in the result: the children of the
    cluster, and its name, follow the order of the input. *)
Lemma merge_intervals_order_shows_on_ties :
  let a := leaf "1" 100 200 0 "a" "DEL" "Pindel" in
  let b := leaf "1" 100 200 0 "b" "DEL" "BreakDancer" in
  merge_intervals [a; b] ≠ merge_intervals [b; a].
Proof. vm_compute. intros H. discriminate H. Qed.

(** ** The size of the result *)

Lemma merge_loop_length rest : ∀ cur acc r,
  merge_loop cur rest acc = Ok r →
  (List.length acc + 1 ≤ List.length r
   ∧ List.length r ≤ List.length acc + 1 + List.length rest)%nat.
Proof.
  induction rest as [| next rest IH]; intros cur acc r Hrun; cbn [merge_loop] in Hrun.
  { assert (r = acc ++ [cur]) as -> by congruence. rewrite length_app. simpl. lia. }
  destruct (overlaps_default cur next || is_adjacent cur next 0).
  - destruct (match sub_intervals cur with
              | [] => set_merged SVInterval_default cur next
              | _ :: _ => merge cur next
              end) as [new | e]; [| done].
    cbn [mbind result_bind] in Hrun. specialize (IH _ _ _ Hrun). simpl. lia.
  - specialize (IH _ _ _ Hrun). rewrite length_app in IH. simpl in *. lia.
Qed.

(** X7.  The list [merge_intervals] returns is never longer than its
    input, and it is empty exactly when the input is empty. *)
Theorem merge_intervals_length (l r : list SVInterval) :
  merge_intervals l = Ok r →
  (List.length r ≤ List.length l)%nat ∧ (r = [] ↔ l = []).
Proof.
  intros [[Hs ->] | (first & rest & m & Hsort & Hrun & ->)]%merge_intervals_Ok_inv.
  - pose proof (sort_length l) as Hlen. rewrite Hs in Hlen.
    destruct l; [| done]. split; [simpl; lia | done].
  - pose proof (sort_length l) as Hlen. rewrite Hsort in Hlen.
    pose proof (merge_loop_length _ _ _ _ Hrun) as [H1 H2].
    rewrite sort_length. simpl in *. split; [lia |].
    split; intros H.
    + apply (f_equal List.length) in H. rewrite sort_length in H. simpl in H. lia.
    + subst l. simpl in Hlen. lia.
Qed.

Lemma merge_intervals_length_witness :
  (List.length c1_plain_merged ≤ List.length c1_plain_input)%nat
  ∧ (c1_plain_merged = [] ↔ c1_plain_input = []).
Proof. exact (merge_intervals_length c1_plain_input c1_plain_merged c1_plain_run). Defined.

(** ** The order and the geometric tests *)

(** X8.  [__lt__] is a strict order on the key [(chrom, start, end)]: no
    interval is below itself, the relation is asymmetric and transitive,
    any two intervals with different keys are comparable, and two
    intervals neither of which is below the other have the same key. *)
Theorem lt_strict_total_on_keys :
  (∀ a, __lt__ a a = false)
  ∧ (∀ a b, __lt__ a b = true → __lt__ b a = false)
  ∧ (∀ a b c, __lt__ a b = true → __lt__ b c = true → __lt__ a c = true)
  ∧ (∀ a b, __lt__ a b = false → __lt__ b a = false →
            chrom a = chrom b ∧ start a = start b ∧ end_ a = end_ b).
Proof.
  split; [| split; [| split]].
  - intros a. apply precedes_refl.
  - intros a b. apply lt_precedes.
  - intros a b c Hab Hbc.
    destruct (__lt__ a c) eqn:Hac; [done |]. exfalso.
    assert (precedes c b) as Hcb.
    { apply precedes_trans with a; [exact Hac | by apply lt_precedes]. }
    unfold precedes in Hcb. congruence.
  - intros a b Hab Hba.
    apply (precedes_spec b a) in Hab. apply (precedes_spec a b) in Hba.
    destruct Hab as [H1 | [Hc1 H1]], Hba as [H2 | [Hc2 H2]].
    + exfalso. eapply str_lt_irrefl, str_lt_trans; eauto.
    + exfalso. rewrite Hc2 in H1. by apply str_lt_irrefl in H1.
    + exfalso. rewrite Hc1 in H2. by apply str_lt_irrefl in H2.
    + split; [done | lia].
Qed.

Lemma lt_strict_total_on_keys_witness :
  __lt__ gap_left gap_right = true ∧ __lt__ gap_right gap_left = false.
Proof.
  destruct lt_strict_total_on_keys as (_ & Hasym & _).
  assert (__lt__ gap_left gap_right = true) as H by reflexivity.
  split; [exact H | exact (Hasym gap_left gap_right H)].
Defined.

(** X9.  With the same fraction for both intervals and the same minimum
    length for both, as at every call in the module, [overlaps] does not
    depend on which interval is the receiver. *)
Theorem overlaps_symmetric_equal_thresholds (a b : SVInterval) (f : Q) (x : Z) :
  overlaps a b f f x x = overlaps b a f f x x.
Proof. by apply overlaps_swap_same_threshold. Qed.

(** X10.  [is_adjacent] does not depend on which interval is the
    receiver, and with a gap that is not negative no interval is adjacent
    to itself. *)
Theorem is_adjacent_symmetric_irreflexive (a b : SVInterval) (gap : Z) :
  is_adjacent a b gap = is_adjacent b a gap
  ∧ (0 ≤ gap → is_adjacent a a gap = false).
Proof.
  unfold is_adjacent. split.
  - rewrite (String.eqb_sym (chrom b) (chrom a)).
    destruct (negb (chrom a =? chrom b)%string); [done | apply orb_comm].
  - intros Hgap. rewrite String.eqb_refl. cbn [negb].
    destruct (Z.ltb_spec (end_ a + gap) (end_ a)); [lia |].
    by rewrite andb_false_r.
Qed.

Lemma is_adjacent_symmetric_irreflexive_witness :
  is_adjacent gap_left gap_right 10 = is_adjacent gap_right gap_left 10
  ∧ is_adjacent gap_left gap_left 10 = false.
Proof.
  destruct (is_adjacent_symmetric_irreflexive gap_left gap_right 10) as [Hs Hi].
  split; [exact Hs | apply Hi; lia].
Defined.

(** X11.  For two calls with wiggle 0, positive width and coordinates
    within [0, 10^9], the test of line 278 (merge-time overlap or gap-0
    adjacency) fails exactly when the calls lie on different chromosomes
    or one ends at least one base before the other starts. *)
Theorem merge_test_is_gap_test (a b : SVInterval) :
  plain a → plain b →
  overlaps_default a b || is_adjacent a b 0 = false
  ↔ chrom a ≠ chrom b ∨ end_ a < start b ∨ end_ b < start a.
Proof.
  intros Ha Hb. fold (conflict a b). rewrite (conflict_plain a b Ha Hb). split.
  - intros H. destruct (decide (chrom a = chrom b)) as [Hc | Hc]; [| by left].
    right. by apply H.
  - intros [H | H] Hc; [done | exact H].
Qed.

Lemma merge_test_is_gap_test_witness :
  overlaps_default gap_left gap_right || is_adjacent gap_left gap_right 0 = false.
Proof.
  apply (merge_test_is_gap_test gap_left gap_right).
  - unfold plain. simpl. lia.
  - unfold plain. simpl. lia.
  - right. left. simpl. lia.
Defined.

(** ** The lookup on an arbitrary list *)

Lemma bisect_loop_range fuel a x : ∀ lo hi,
  (lo ≤ hi)%nat → (lo ≤ bisect_loop fuel a x lo hi ≤ hi)%nat.
Proof.
  induction fuel as [| fuel IH]; intros lo hi Hlo; cbn [bisect_loop]; [lia |].
  destruct (Nat.ltb_spec lo hi) as [Hlt | Hge]; [| lia].
  pose proof (Nat.div_mod_eq (lo + hi) 2) as Hdiv.
  pose proof (Nat.mod_upper_bound (lo + hi) 2) as Hmod.
  set (mid := ((lo + hi) / 2)%nat) in *.
  assert (lo ≤ mid < hi)%nat as [Hm1 Hm2] by lia.
  destruct (a !! mid) as [y |]; [| lia].
  destruct (__lt__ y x).
  - specialize (IH (mid + 1)%nat hi). lia.
  - specialize (IH lo mid). lia.
Qed.

(** X12.  Whatever the list, sorted or not, and whatever the fractions:
    the index [interval_overlaps_interval_list] reads lies within the
    list, a true answer is backed by an element of the list that passes
    [overlaps] with those fractions, and the answer on the empty list is
    false. *)
Theorem lookup_sound (interval : SVInterval) (interval_list : list SVInterval)
    (f g : Q) :
  (bisect_left interval_list interval ≤ List.length interval_list)%nat
  ∧ (interval_overlaps_interval_list interval interval_list f g = true →
     ∃ p, p ∈ interval_list ∧ overlaps interval p f g 1 1 = true)
  ∧ interval_overlaps_interval_list interval [] f g = false.
Proof.
  split; [| split].
  - unfold bisect_left.
    pose proof (bisect_loop_range (List.length interval_list) interval_list interval
                  0 (List.length interval_list)). lia.
  - intros [(p & _ & Hp & Hov) | (p & Hp & Hov)]%interval_overlaps_interval_list_true;
      exists p; (split; [by eapply list_elem_of_lookup_2 | done]).
  - reflexivity.
Qed.

Lemma lookup_sound_witness :
  ∃ p, p ∈ c4_reference ∧ overlaps c4_query p default_fraction default_fraction 1 1 = true.
Proof.
  destruct (lookup_sound c4_query c4_reference default_fraction default_fraction)
    as (_ & H & _).
  apply H. vm_compute. reflexivity.
Defined.

(** ** More on [do_validation] *)

Section ValidationMore.

Variable list_of_set : gset string → list string.
Hypothesis list_of_set_spec : ∀ (s : gset string) (x : string),
  x ∈ list_of_set s ↔ x ∈ s.

Lemma same_identity_refl a : same_identity a a.
Proof. by repeat split. Qed.

Lemma same_identity_trans a b c :
  same_identity a b → same_identity b c → same_identity a c.
Proof.
  unfold same_identity. intros (?&?&?&?&?&?&?&?&?) (?&?&?&?&?&?&?&?&?).
  repeat split; congruence.
Qed.

Lemma recompute_bounds_identity self : same_identity (recompute_bounds self) self.
Proof. destruct self. by repeat split. Qed.

Lemma validate_loop_cases srcs self lists pm r :
  validate_loop srcs self lists pm r = self
  ∨ ∃ s c, s ∈ srcs ∧ lists !!! s = [c] ∧ qualifies self c pm r = true
      ∧ validate_loop srcs self lists pm r
        = set_is_precise
            (set_validating_interval
               (set_is_validated self (1 <? size (sources self))%nat) (Some c))
            (str_in s precise_sv_sources).
Proof.
  induction srcs as [| s0 srcs IH]; cbn [validate_loop]; [by left |].
  assert (validate_loop srcs self lists pm r = self
          ∨ ∃ s c, s ∈ s0 :: srcs ∧ lists !!! s = [c] ∧ qualifies self c pm r = true
              ∧ validate_loop srcs self lists pm r
                = set_is_precise
                    (set_validating_interval
                       (set_is_validated self (1 <? size (sources self))%nat)
                       (Some c))
                    (str_in s precise_sv_sources)) as IH'.
  { destruct IH as [H | (s & c & Hs & H)]; [by left | right].
    exists s, c. split; [by right | done]. }
  destruct (lists !!! s0) as [| c0 [| c1 l0]] eqn:Hs0; try exact IH'.
  destruct (qualifies self c0 pm r) eqn:Hq; [| exact IH'].
  right. exists s0, c0. split; [by left | done].
Qed.

Lemma validate_loop_identity srcs self lists pm r :
  same_identity (validate_loop srcs self lists pm r) self.
Proof.
  destruct (validate_loop_cases srcs self lists pm r) as [-> | (s & c & _ & _ & _ & ->)].
  - apply same_identity_refl.
  - destruct self. by repeat split.
Qed.

Lemma length_loop_identity srcs self lists :
  same_identity (length_loop srcs self lists) self
  ∧ gt (length_loop srcs self lists) = gt self
  ∧ info (length_loop srcs self lists) = info self
  ∧ (length (length_loop srcs self lists) = length self
     ∨ ∃ s first rest, s ∈ srcs ∧ lists !!! s = first :: rest
         ∧ 0 < length first
         ∧ length (length_loop srcs self lists) = length first).
Proof.
  induction srcs as [| s0 srcs IH]; cbn [length_loop].
  { split; [apply same_identity_refl |]. split; [done |]. split; [done | by left]. }
  assert (same_identity (length_loop srcs self lists) self
          ∧ gt (length_loop srcs self lists) = gt self
          ∧ info (length_loop srcs self lists) = info self
          ∧ (length (length_loop srcs self lists) = length self
             ∨ ∃ s first rest, s ∈ s0 :: srcs ∧ lists !!! s = first :: rest
                 ∧ 0 < length first
                 ∧ length (length_loop srcs self lists) = length first)) as IH'.
  { destruct IH as (H1 & H2 & H3 & [H4 | (s & f & rst & Hs & H4)]).
    - split; [done |]. split; [done |]. split; [done | by left].
    - split; [done |]. split; [done |]. split; [done | right].
      exists s, f, rst. split; [by right | done]. }
  destruct (bool_decide (s0 ∈ sources self)); [| exact IH'].
  destruct (lists !!! s0) as [| first rst] eqn:Hs0; [exact IH' |].
  destruct (Z.ltb_spec 0 (length first)) as [Hpos | Hpos]; [| exact IH'].
  split; [destruct self; by repeat split |]. split; [done |]. split; [done |].
  right. exists s0, first, rst. split; [by left | done].
Qed.

Lemma adopt_validating_identity self lists :
  same_identity (adopt_validating self lists) self.
Proof.
  unfold adopt_validating. destruct (is_validated self); cbn [negb];
    [| apply same_identity_refl].
  destruct (is_precise self); [| apply same_identity_refl].
  destruct (validating_interval self) as [v |]; [| apply same_identity_refl].
  match goal with |- context [if ?c then _ else _] => destruct c end.
  - match goal with |- context [length_loop ?s ?x ?l] =>
      destruct (length_loop_identity s x l) as (H & _) end.
    eapply same_identity_trans; [exact H |]. destruct self. by repeat split.
  - destruct self. by repeat split.
Qed.

(** What a returning run on a cluster of interest went through. *)
Lemma do_validation_composite_inv self r self' :
  str_in (sv_type self) svs_of_interest = true → sub_intervals self ≠ [] →
  do_validation list_of_set self r = Ok self' →
  ∃ pc pm lists,
    precise_children list_of_set (sub_intervals self) = Ok pc
    ∧ merge_intervals pc = Ok pm
    ∧ fill_lists list_of_set (sub_intervals self) empty_lists = Ok lists
    ∧ self' = adopt_validating
                (validate_loop sv_sources (recompute_bounds self) lists pm r) lists.
Proof.
  intros Ht Hne Hrun. unfold do_validation in Hrun.
  destruct (recompute_bounds_fields self) as (_ & _ & Ht' & Hsb & _).
  rewrite Ht', Hsb, Ht in Hrun. cbn [negb] in Hrun.
  destruct (sub_intervals self) as [| x subs] eqn:Hsubs; [done |].
  destruct (precise_children list_of_set (x :: subs)) as [pc | ?] eqn:Hpc; [| done].
  cbn [mbind result_bind] in Hrun.
  destruct (merge_intervals pc) as [pm | ?] eqn:Hpm; [| done].
  destruct (fill_lists list_of_set (x :: subs) empty_lists) as [lists | ?] eqn:Hl;
    [| done].
  cbn [mbind result_bind] in Hrun.
  exists pc, pm, lists. repeat split; congruence.
Qed.

(** The three ways a run ends. *)
Lemma do_validation_Ok_cases self r self' :
  do_validation list_of_set self r = Ok self' →
  (str_in (sv_type self) svs_of_interest = false ∧ self' = recompute_bounds self)
  ∨ (str_in (sv_type self) svs_of_interest = true ∧ sub_intervals self = []
     ∧ ∃ s, first_source list_of_set self = Ok s
            ∧ self' = set_is_precise (recompute_bounds self)
                                     (str_in s precise_sv_sources))
  ∨ (str_in (sv_type self) svs_of_interest = true ∧ sub_intervals self ≠ []
     ∧ ∃ pm lists,
         fill_lists list_of_set (sub_intervals self) empty_lists = Ok lists
         ∧ self' = adopt_validating
                     (validate_loop sv_sources (recompute_bounds self) lists pm r)
                     lists).
Proof.
  intros Hrun. destruct (str_in (sv_type self) svs_of_interest) eqn:Ht.
  - destruct (sub_intervals self) as [| x subs] eqn:Hsubs.
    + right. left. split; [done |]. split; [done |].
      unfold do_validation in Hrun.
      destruct (recompute_bounds_fields self) as (_ & _ & Ht' & Hsb & Hsrc & _).
      rewrite Ht', Hsb, Ht, Hsubs in Hrun. cbn [negb] in Hrun.
      assert (first_source list_of_set (recompute_bounds self)
              = first_source list_of_set self) as Hfs
        by (unfold first_source; by rewrite Hsrc).
      rewrite Hfs in Hrun.
      destruct (first_source list_of_set self) as [s | ?]; [| done].
      cbn [mbind result_bind] in Hrun. exists s. split; congruence.
    + right. right. split; [done |]. split; [done |].
      destruct (do_validation_composite_inv self r self' Ht) as (pc & pm & lists & H);
        [by rewrite Hsubs | done |].
      rewrite Hsubs in H. exists pm, lists. tauto.
  - left. split; [done |]. unfold do_validation in Hrun.
    destruct (recompute_bounds_fields self) as (_ & _ & Ht' & _).
    rewrite Ht', Ht in Hrun. cbn [negb] in Hrun. congruence.
Qed.

(** X13.  [do_validation] never changes [chrom], [name], [sv_type],
    [sources], [wiggle], [sub_intervals], [cipos], [ciend] or
    [native_sv]; and for an [sv_type] outside [svs_of_interest] it returns
    with nothing changed but [start] and [end]. *)
Theorem do_validation_identity (self self' : SVInterval) (overlap_ratio : Q) :
  do_validation list_of_set self overlap_ratio = Ok self' →
  same_identity self' self
  ∧ (str_in (sv_type self) svs_of_interest = false →
     self' = set_end (set_start self (get_start self)) (get_end self)).
Proof.
  intros Hrun.
  destruct (do_validation_Ok_cases self overlap_ratio self' Hrun)
    as [[Ht ->] | [(Ht & _ & s & _ & ->) | (Ht & _ & pm & lists & _ & ->)]].
  - split; [apply recompute_bounds_identity |]. intros _. by destruct self.
  - split; [| congruence].
    eapply same_identity_trans; [| apply recompute_bounds_identity].
    destruct (recompute_bounds self). by repeat split.
  - split; [| congruence].
    eapply same_identity_trans; [apply adopt_validating_identity |].
    eapply same_identity_trans; [apply validate_loop_identity |].
    apply recompute_bounds_identity.
Qed.

Lemma children_of_subset s subs c : c ∈ children_of list_of_set s subs → c ∈ subs.
Proof.
  unfold children_of. rewrite !list_elem_of_In, filter_In. tauto.
Qed.

Lemma children_of_source s subs c :
  c ∈ children_of list_of_set s subs → first_source list_of_set c = Ok s.
Proof.
  unfold children_of. rewrite list_elem_of_In, filter_In. intros [_ H].
  unfold from_source in H. destruct (first_source list_of_set c) as [s' | e]; [| done].
  by apply String.eqb_eq in H as ->.
Qed.

Lemma fill_lists_children subs lists s :
  fill_lists list_of_set subs empty_lists = Ok lists →
  lists !!! s = children_of list_of_set s subs.
Proof.
  intros H. rewrite (fill_lists_spec list_of_set _ _ _ H s).
  by rewrite empty_lists_lookup_total.
Qed.

(** X14.  When a run that started without a validating interval ends with
    one, that interval is a direct child of the cluster and the only child
    whose first source is its tool, one of [sv_sources]: a tool with two
    or more calls on the cluster never validates it.  [is_precise] is
    whether that tool is one of [precise_sv_sources], and [is_validated]
    is whether the cluster has more than one source. *)
Theorem do_validation_validating_interval (self self' : SVInterval)
    (overlap_ratio : Q) (v : SVInterval) :
  validating_interval self = None →
  do_validation list_of_set self overlap_ratio = Ok self' →
  validating_interval self' = Some v →
  v ∈ sub_intervals self
  ∧ ∃ s, s ∈ sv_sources
         ∧ first_source list_of_set v = Ok s
         ∧ children_of list_of_set s (sub_intervals self) = [v]
         ∧ is_precise self' = str_in s precise_sv_sources
         ∧ is_validated self' = (1 <? size (sources self))%nat.
Proof.
  intros Hnone Hrun Hv.
  destruct (recompute_bounds_fields self) as (_ & _ & _ & _ & Hsrc & _ & _ & Hvi).
  destruct (do_validation_Ok_cases self overlap_ratio self' Hrun)
    as [[_ ->] | [(_ & _ & s & _ & ->) | (_ & _ & pm & lists & Hl & ->)]].
  - rewrite Hvi, Hnone in Hv. done.
  - cbn [validating_interval set_is_precise] in Hv. rewrite Hvi, Hnone in Hv. done.
  - match goal with |- context [adopt_validating ?x ?l] =>
      destruct (adopt_validating_flags x l) as (Hf1 & Hf2 & Hf3) end.
    rewrite Hf3 in Hv. rewrite Hf1, Hf2.
    destruct (validate_loop_cases sv_sources (recompute_bounds self) lists pm
                overlap_ratio) as [Heq | (s & c & Hs & Hsc & _ & Heq)];
      rewrite Heq in Hv |- *.
    + rewrite Hvi, Hnone in Hv. done.
    + cbn [validating_interval set_is_precise set_validating_interval] in Hv.
      assert (c = v) as -> by congruence.
      rewrite (fill_lists_children _ _ _ Hl) in Hsc.
      split.
      * apply (children_of_subset s). rewrite Hsc. by left.
      * exists s. split; [done |]. split.
        { apply (children_of_source s (sub_intervals self)). rewrite Hsc. by left. }
        split; [done |].
        cbn [is_precise is_validated set_is_precise set_validating_interval
             set_is_validated]. by rewrite Hsrc.
Qed.

(** X15.  A run never validates a cluster with fewer than two sources:
    if [is_validated] is true afterwards, it was true before or the
    cluster has more than one source. *)
Theorem do_validation_needs_two_sources (self self' : SVInterval)
    (overlap_ratio : Q) :
  do_validation list_of_set self overlap_ratio = Ok self' →
  is_validated self' = true →
  is_validated self = true ∨ (1 < size (sources self))%nat.
Proof.
  intros Hrun Hv.
  destruct (recompute_bounds_fields self) as (_ & _ & _ & _ & Hsrc & Hva & _).
  destruct (do_validation_Ok_cases self overlap_ratio self' Hrun)
    as [[_ ->] | [(_ & _ & s & _ & ->) | (_ & _ & pm & lists & Hl & ->)]].
  - left. by rewrite <- Hva.
  - left. cbn [is_validated set_is_precise] in Hv. by rewrite <- Hva.
  - match goal with H : context [adopt_validating ?x ?l] |- _ =>
      destruct (adopt_validating_flags x l) as (Hf1 & _) end.
    rewrite Hf1 in Hv.
    destruct (validate_loop_cases sv_sources (recompute_bounds self) lists pm
                overlap_ratio) as [Heq | (s & c & _ & _ & _ & Heq)];
      rewrite Heq in Hv.
    + left. by rewrite <- Hva.
    + right. cbn [is_validated set_is_precise set_validating_interval
                  set_is_validated] in Hv.
      rewrite Hsrc in Hv. by apply Nat.ltb_lt in Hv.
Qed.

Lemma adopt_validating_snapped self lists v :
  is_validated self = true → is_precise self = true →
  validating_interval self = Some v →
  adopt_validating self lists
  = if length v =? 0
    then length_loop sv_sources
           (set_info (set_gt (set_length (set_end (set_start self (start v)) (end_ v))
                                         (length v)) (gt v)) (info v)) lists
    else set_info (set_gt (set_length (set_end (set_start self (start v)) (end_ v))
                                      (length v)) (gt v)) (info v).
Proof. intros Hv Hp Hvi. unfold adopt_validating. by rewrite Hv, Hp, Hvi. Qed.

(** X16.  A cluster of interest that ends validated and precise takes
    the genotype and the info of its validating interval, and its length
    when that is not zero; when it is zero the length is zero or the
    positive length of one of the children. *)
Theorem do_validation_adopts (self self' : SVInterval) (overlap_ratio : Q)
    (v : SVInterval) :
  str_in (sv_type self) svs_of_interest = true → sub_intervals self ≠ [] →
  do_validation list_of_set self overlap_ratio = Ok self' →
  is_validated self' = true → is_precise self' = true →
  validating_interval self' = Some v →
  gt self' = gt v ∧ info self' = info v
  ∧ (length v ≠ 0 → length self' = length v)
  ∧ (length v = 0 →
     length self' = 0
     ∨ ∃ c, c ∈ sub_intervals self ∧ 0 < length c ∧ length self' = length c).
Proof.
  intros Ht Hne Hrun Hva Hpr Hvi.
  destruct (do_validation_composite_inv self overlap_ratio self' Ht Hne Hrun)
    as (pc & pm & lists & _ & _ & Hl & ->).
  match goal with H : context [adopt_validating ?x ?l] |- _ =>
    destruct (adopt_validating_flags x l) as (Hf1 & Hf2 & Hf3);
    rewrite Hf1 in Hva; rewrite Hf2 in Hpr; rewrite Hf3 in Hvi;
    rewrite (adopt_validating_snapped x l v Hva Hpr Hvi)
  end.
  destruct (Z.eqb_spec (length v) 0) as [Hz | Hz].
  - match goal with |- context [length_loop ?s ?x ?l] =>
      destruct (length_loop_identity s x l) as (_ & Hg & Hi & Hlen) end.
    rewrite Hg, Hi. split; [done |]. split; [done |]. split; [done |].
    intros _. destruct Hlen as [Hlen | (s & first & rst & _ & Hs & Hpos & Hlen)].
    + left. rewrite Hlen. exact Hz.
    + right. exists first. split; [| done].
      rewrite (fill_lists_children _ _ _ Hl) in Hs.
      apply (children_of_subset s). rewrite Hs. by left.
  - split; [done |]. split; [done |]. split; [done | by intros ?].
Qed.

(** *** Exceptions *)

Lemma precise_children_raises subs :
  Exists (λ c, sources c = ∅) subs →
  precise_children list_of_set subs = Raise IndexError.
Proof.
  induction subs as [| c subs IH]; intros Hex; [by apply Exists_nil in Hex |].
  cbn [precise_children].
  destruct (first_source list_of_set c) as [s |] eqn:Hfs.
  - cbn [mbind result_bind].
    apply Exists_cons in Hex as [Hc | Hex].
    + by rewrite (first_source_empty list_of_set list_of_set_spec c Hc) in Hfs.
    + by rewrite (IH Hex).
  - unfold first_source in Hfs. by destruct (list_of_set (sources c)); simplify_eq.
Qed.

(** X17.  On a cluster of interest with a child that names no tool,
    [do_validation] raises [IndexError]. *)
Theorem do_validation_anonymous_child (self : SVInterval) (overlap_ratio : Q) :
  str_in (sv_type self) svs_of_interest = true →
  Exists (λ c, sources c = ∅) (sub_intervals self) →
  do_validation list_of_set self overlap_ratio = Raise IndexError.
Proof.
  intros Ht Hex. unfold do_validation.
  destruct (recompute_bounds_fields self) as (_ & _ & Ht' & Hsb & _).
  rewrite Ht', Hsb, Ht. cbn [negb].
  destruct (sub_intervals self) as [| x subs] eqn:Hsubs;
    [by apply Exists_nil in Hex |].
  by rewrite (precise_children_raises _ Hex).
Qed.

Lemma first_source_nonempty c :
  sources c ≠ ∅ → ∃ s, first_source list_of_set c = Ok s ∧ s ∈ sources c.
Proof.
  intros Hne. unfold first_source.
  destruct (list_of_set (sources c)) as [| s l] eqn:Hl.
  - exfalso. apply Hne. apply set_eq. intros x.
    rewrite <- list_of_set_spec, Hl. set_solver.
  - exists s. split; [done |]. apply list_of_set_spec. rewrite Hl. by left.
Qed.

Lemma precise_children_sourced subs :
  Forall (λ c, sources c ≠ ∅) subs →
  ∃ pc, precise_children list_of_set subs = Ok pc ∧ pc ⊆ subs.
Proof.
  induction 1 as [| c subs Hc _ IH]; cbn [precise_children].
  { exists []. split; [done |]. by intros x Hx. }
  destruct (first_source_nonempty c Hc) as (s & Hs & _).
  destruct IH as (pc & Hpc & Hsub).
  rewrite Hs, Hpc. cbn [mbind result_bind].
  destruct (str_in s precise_sv_sources).
  - exists (c :: pc). split; [done |]. intros x [-> | Hx]%elem_of_cons.
    + by left.
    + right. by apply Hsub.
  - exists pc. split; [done |]. intros x Hx. right. by apply Hsub.
Qed.

Lemma empty_lists_keys_inv s : is_Some (empty_lists !! s) → s ∈ sv_sources.
Proof.
  unfold empty_lists, sv_sources. cbn [fmap list_fmap list_to_map foldr uncurry fst snd].
  repeat (rewrite lookup_insert; case_decide; [subst; intros _; set_solver |]).
  rewrite lookup_empty. by intros [? ?].
Qed.

Lemma fill_lists_raises subs : ∀ m,
  (∀ s, is_Some (m !! s) ↔ s ∈ sv_sources) →
  Forall (λ c, sources c ≠ ∅) subs →
  Exists (λ c, ∀ s, first_source list_of_set c = Ok s → s ∉ sv_sources) subs →
  fill_lists list_of_set subs m = Raise KeyError.
Proof.
  induction subs as [| c subs IH]; intros m Hkeys Hsrc Hex;
    [by apply Exists_nil in Hex |].
  apply Forall_cons in Hsrc as [Hc Hsrc]. cbn [fill_lists].
  destruct (first_source_nonempty c Hc) as (s & Hs & _). rewrite Hs.
  cbn [mbind result_bind].
  destruct (m !! s) as [l |] eqn:Hl; [| done].
  assert (s ∈ sv_sources) as Hin by (apply Hkeys; eauto).
  apply Exists_cons in Hex as [Hbad | Hex]; [by apply Hbad in Hs |].
  apply IH; [| done | done].
  intros s'. rewrite lookup_insert. case_decide; [| apply Hkeys].
  subst. split; [done | eauto].
Qed.

(** X18.  On a cluster of interest whose children all name a tool and
    carry a name, [do_validation] raises [KeyError] as soon as one child's
    first source is not one of [sv_sources]. *)
Theorem do_validation_unknown_tool (self : SVInterval) (overlap_ratio : Q) :
  str_in (sv_type self) svs_of_interest = true →
  Forall (λ c, sources c ≠ ∅) (sub_intervals self) →
  Forall (λ c, is_Some (name c)) (sub_intervals self) →
  Exists (λ c, ∀ s, first_source list_of_set c = Ok s → s ∉ sv_sources)
         (sub_intervals self) →
  do_validation list_of_set self overlap_ratio = Raise KeyError.
Proof.
  intros Ht Hsrc Hnamed Hex. unfold do_validation.
  destruct (recompute_bounds_fields self) as (_ & _ & Ht' & Hsb & _).
  rewrite Ht', Hsb, Ht. cbn [negb].
  destruct (sub_intervals self) as [| x subs] eqn:Hsubs;
    [by apply Exists_nil in Hex |].
  destruct (precise_children_sourced _ Hsrc) as (pc & Hpc & Hsub).
  rewrite Hpc. cbn [mbind result_bind].
  destruct (merge_intervals_returns pc) as [pm Hpm].
  { rewrite Forall_forall in Hnamed. apply Forall_forall. intros i Hi.
    apply Hnamed. by apply Hsub. }
  rewrite Hpm.
  rewrite (fill_lists_raises (x :: subs) empty_lists); [done | | done | done].
  intros s. split; [apply empty_lists_keys_inv | apply empty_lists_keys].
Qed.

End ValidationMore.


Lemma do_validation_identity_witness :
  ∃ self', do_validation sorted_elements (two_tool_cluster "DEL") (1 # 2) = Ok self'
           ∧ same_identity self' (two_tool_cluster "DEL").
Proof.
  destruct (do_validation sorted_elements (two_tool_cluster "DEL") (1 # 2))
    as [self' | e] eqn:Hrun.
  - exists self'. split; [reflexivity |].
    exact (proj1 (do_validation_identity sorted_elements (two_tool_cluster "DEL") self'
                    (1 # 2) Hrun)).
  - vm_compute in Hrun. discriminate Hrun.
Defined.

Lemma do_validation_validating_interval_witness :
  ∃ self', do_validation sorted_elements (two_tool_cluster "DEL") (1 # 2) = Ok self'
           ∧ validating_interval self' = Some pindel_call
           ∧ pindel_call ∈ sub_intervals (two_tool_cluster "DEL").
Proof.
  destruct (do_validation sorted_elements (two_tool_cluster "DEL") (1 # 2))
    as [self' | e] eqn:Hrun.
  - assert (validating_interval self' = Some pindel_call) as Hv.
    { vm_compute in Hrun. injection Hrun as <-. reflexivity. }
    exists self'. split; [reflexivity |]. split; [exact Hv |].
    refine (proj1 (do_validation_validating_interval sorted_elements
                     (two_tool_cluster "DEL") self' (1 # 2) pindel_call _ Hrun Hv)).
    reflexivity.
  - vm_compute in Hrun. discriminate Hrun.
Defined.

Lemma do_validation_needs_two_sources_witness :
  ∃ self', do_validation sorted_elements (two_tool_cluster "DEL") (1 # 2) = Ok self'
           ∧ is_validated self' = true
           ∧ (is_validated (two_tool_cluster "DEL") = true
              ∨ (1 < size (sources (two_tool_cluster "DEL")))%nat).
Proof.
  destruct (do_validation sorted_elements (two_tool_cluster "DEL") (1 # 2))
    as [self' | e] eqn:Hrun.
  - assert (is_validated self' = true) as Hv.
    { vm_compute in Hrun. injection Hrun as <-. reflexivity. }
    exists self'. split; [reflexivity |]. split; [exact Hv |].
    exact (do_validation_needs_two_sources sorted_elements (two_tool_cluster "DEL")
             self' (1 # 2) Hrun Hv).
  - vm_compute in Hrun. discriminate Hrun.
Defined.

Lemma do_validation_adopts_witness :
  ∃ self', do_validation sorted_elements (two_tool_cluster "DEL") (1 # 2) = Ok self'
           ∧ gt self' = gt pindel_call ∧ info self' = info pindel_call.
Proof.
  destruct (do_validation sorted_elements (two_tool_cluster "DEL") (1 # 2))
    as [self' | e] eqn:Hrun.
  - assert (is_validated self' = true ∧ is_precise self' = true
            ∧ validating_interval self' = Some pindel_call) as (H1 & H2 & H3).
    { vm_compute in Hrun. injection Hrun as <-. repeat split. }
    exists self'. split; [reflexivity |].
    destruct (do_validation_adopts sorted_elements (two_tool_cluster "DEL") self'
                (1 # 2) pindel_call) as (Hg & Hi & _); try assumption.
    + reflexivity.
    + discriminate.
    + split; [exact Hg | exact Hi].
  - vm_compute in Hrun. discriminate Hrun.
Defined.

Lemma do_validation_anonymous_child_witness :
  do_validation sorted_elements anonymous_cluster (1 # 2) = Raise IndexError.
Proof.
  apply (do_validation_anonymous_child sorted_elements sorted_elements_spec).
  - reflexivity.
  - right. left. reflexivity.
Defined.

Lemma do_validation_unknown_tool_witness :
  do_validation sorted_elements lumpy_cluster (1 # 2) = Raise KeyError.
Proof.
  apply (do_validation_unknown_tool sorted_elements sorted_elements_spec).
  - reflexivity.
  - repeat constructor; intros H; vm_compute in H; discriminate H.
  - repeat constructor; eexists; reflexivity.
  - right. left. intros s Hs. vm_compute in Hs. injection Hs as <-.
    intros Hin. unfold sv_sources in Hin.
    repeat (apply elem_of_cons in Hin as [Hin | Hin]; [discriminate Hin |]).
    exact (proj1 (elem_of_nil _) Hin).
Defined.

(** ** More on [fix_pos] *)

(** X19.  [fix_pos] applied twice gives what it gives applied once. *)
Theorem fix_pos_idempotent (self : SVInterval) :
  fix_pos (fix_pos self) = fix_pos self.
Proof.
  unfold fix_pos at 2.
  destruct (String.eqb_spec (sv_type self) "INS") as [Ht | Ht].
  - destruct (is_precise self) eqn:Hp; cbn [negb].
    + unfold fix_pos.
      cbn [sv_type is_precise start end_ set_start set_end set_cipos].
      rewrite Ht, Hp. cbn [String.eqb Ascii.eqb Bool.eqb negb].
      replace ((start self + end_ self) / 2 + (start self + end_ self) / 2)
        with ((start self + end_ self) / 2 * 2) by lia.
      by rewrite Z.div_mul.
    + unfold fix_pos.
      cbn [sv_type is_precise start end_ set_start set_end set_cipos].
      rewrite Ht, Hp. cbn [String.eqb Ascii.eqb Bool.eqb negb].
      by rewrite !Z.sub_diag.
  - unfold fix_pos. by destruct (String.eqb_spec (sv_type self) "INS").
Qed.

(** X20.  [fix_pos] leaves every interval whose [sv_type] is not ["INS"]
    as it is.  It turns an insertion into a point, [start = end], which
    lies within the original [start] and [end] when these are in order;
    and it never changes [chrom], [length], [sources], [sub_intervals] or
    the validation flags. *)
Theorem fix_pos_point (self : SVInterval) :
  (sv_type self ≠ "INS"%string → fix_pos self = self)
  ∧ (sv_type self = "INS"%string →
     start (fix_pos self) = end_ (fix_pos self)
     ∧ (start self ≤ end_ self →
        start self ≤ start (fix_pos self) ∧ end_ (fix_pos self) ≤ end_ self))
  ∧ chrom (fix_pos self) = chrom self ∧ length (fix_pos self) = length self
  ∧ sources (fix_pos self) = sources self
  ∧ sub_intervals (fix_pos self) = sub_intervals self
  ∧ is_precise (fix_pos self) = is_precise self
  ∧ is_validated (fix_pos self) = is_validated self
  ∧ validating_interval (fix_pos self) = validating_interval self.
Proof.
  unfold fix_pos.
  destruct (String.eqb_spec (sv_type self) "INS") as [Ht | Ht].
  - split; [done |]. split.
    + intros _. destruct (is_precise self); cbn [negb]; simpl.
      * split; [done |]. intros Hle.
        pose proof (Z.div_le_lower_bound (start self + end_ self) 2 (start self)).
        pose proof (Z.div_le_upper_bound (start self + end_ self) 2 (end_ self)).
        lia.
      * split; [done | lia].
    + destruct (is_precise self) eqn:Hp; simpl; by repeat split.
  - split; [done |]. split; [done | by repeat split].
Qed.

Lemma fix_pos_point_witness :
  start (fix_pos imprecise_insertion) = end_ (fix_pos imprecise_insertion)
  ∧ start imprecise_insertion ≤ start (fix_pos imprecise_insertion)
  ∧ end_ (fix_pos imprecise_insertion) ≤ end_ imprecise_insertion.
Proof.
  destruct (fix_pos_point imprecise_insertion) as (_ & H & _).
  destruct (H eq_refl) as [H1 H2]. split; [exact H1 |]. apply H2. simpl. lia.
Defined.

(** ** [get_gaps_file] *)

Lemma nonempty_intersection (l : list string) (s : gset string) :
  list_to_set (C := gset string) l ∩ s ≠ ∅ ↔ ∃ x, x ∈ l ∧ x ∈ s.
Proof.
  split.
  - intros Hne. apply set_choose_L in Hne as [x Hx].
    exists x. set_solver.
  - intros (x & Hx1 & Hx2). apply (non_empty_inhabited_L x). set_solver.
Qed.

(** X21.  [get_gaps_file] answers the hg19 file exactly when some contig
    name is one of [chr1 .. chr22, chrX, chrY, chrM]; it answers the b37
    file exactly when no name is one of those and some name is one of
    [1 .. 22, X, Y, MT]; it answers [None] exactly when no name is in
    either set.  No name belongs to both sets. *)
Theorem get_gaps_file_cases (contig_names : list string) :
  (get_gaps_file contig_names = Some gaps_hg19
   ↔ ∃ x, x ∈ contig_names ∧ x ∈ hg19_major)
  ∧ (get_gaps_file contig_names = Some gaps_b37
     ↔ (∀ x, x ∈ contig_names → x ∉ hg19_major)
       ∧ ∃ x, x ∈ contig_names ∧ x ∈ b37_major)
  ∧ (get_gaps_file contig_names = None
     ↔ (∀ x, x ∈ contig_names → (x ∉ hg19_major) ∧ (x ∉ b37_major)))
  ∧ hg19_major ∩ b37_major = ∅.
Proof.
  unfold get_gaps_file.
  pose proof (nonempty_intersection contig_names hg19_major) as Hh.
  pose proof (nonempty_intersection contig_names b37_major) as Hb.
  destruct (bool_decide_reflect (list_to_set contig_names ∩ hg19_major ≠ ∅)) as [H1 | H1];
    [| destruct (bool_decide_reflect (list_to_set contig_names ∩ b37_major ≠ ∅))
         as [H2 | H2]].
  - apply Hh in H1 as (x & Hx1 & Hx2).
    split; [split; [eauto | done] |]. split.
    + split; [done |]. intros [Hn _]. by apply Hn in Hx1.
    + split; [| vm_compute; reflexivity]. split; [done |].
      intros Hn. by apply Hn in Hx1 as [? _].
  - assert (∀ x, x ∈ contig_names → x ∉ hg19_major) as Hno.
    { intros x Hx Hin. apply H1, Hh. eauto. }
    apply Hb in H2 as (x & Hx1 & Hx2).
    split.
    { split; [done |]. intros (y & Hy1 & Hy2). by apply Hno in Hy1. }
    split; [split; [eauto | done] |].
    split; [| vm_compute; reflexivity]. split; [done |].
    intros Hn. by apply Hn in Hx1 as [_ ?].
  - assert (∀ x, x ∈ contig_names → x ∉ hg19_major) as Hno1.
    { intros x Hx Hin. apply H1, Hh. eauto. }
    assert (∀ x, x ∈ contig_names → x ∉ b37_major) as Hno2.
    { intros x Hx Hin. apply H2, Hb. eauto. }
    split.
    { split; [done |]. intros (y & Hy1 & Hy2). by apply Hno1 in Hy1. }
    split.
    { split; [done |]. intros (_ & y & Hy1 & Hy2). by apply Hno2 in Hy1. }
    split; [| vm_compute; reflexivity]. split; [| done].
    intros _ x Hx. split; [by apply Hno1 | by apply Hno2].
Qed.

Lemma get_gaps_file_cases_witness :
  get_gaps_file ["GL000207.1"; "chr7"; "7"]%string = Some gaps_hg19.
Proof.
  destruct (get_gaps_file_cases ["GL000207.1"; "chr7"; "7"]%string) as ((_ & H) & _).
  apply H. exists "chr7"%string. split.
  - right. left.
  - apply (bool_decide_unpack _). vm_compute. reflexivity.
Defined.

(** X22.  The answer of [get_gaps_file] depends only on which names
    occur: two lists with the same names, in any order and however often
    repeated, get the same answer. *)
Theorem get_gaps_file_same_names (l1 l2 : list string) :
  (∀ x, x ∈ l1 ↔ x ∈ l2) → get_gaps_file l1 = get_gaps_file l2.
Proof.
  intros Hsame. unfold get_gaps_file.
  assert (list_to_set (C := gset string) l1 = list_to_set l2) as ->; [| done].
  apply set_eq. intros x. rewrite !elem_of_list_to_set. apply Hsame.
Qed.

Lemma get_gaps_file_same_names_witness :
  get_gaps_file ["1"; "X"; "1"]%string = get_gaps_file ["X"; "1"]%string.
Proof.
  apply (get_gaps_file_same_names ["1"; "X"; "1"]%string ["X"; "1"]%string).
  intros x. split; intros Hx.
  - repeat (apply elem_of_cons in Hx as [-> | Hx]);
      [right; left | left | right; left | exact (False_ind _ (proj1 (elem_of_nil _) Hx))].
  - repeat (apply elem_of_cons in Hx as [-> | Hx]);
      [right; left | left | exact (False_ind _ (proj1 (elem_of_nil _) Hx))].
Defined.

(** ** Rendering *)

Lemma str_app_assoc (a b c : string) : ((a ++ b) ++ c = a ++ b ++ c)%string.
Proof.
  induction a as [| x a IH]; [done |].
  change (String x ((a ++ b) ++ c) = String x (a ++ b ++ c))%string.
  by rewrite IH.
Qed.

Lemma str_concat_app sep (l1 l2 : list string) :
  l1 ≠ [] → l2 ≠ [] →
  String.concat sep (l1 ++ l2)
  = (String.concat sep l1 ++ sep ++ String.concat sep l2)%string.
Proof.
  intros H1 H2. induction l1 as [| x l1 IH]; [done |].
  destruct l1 as [| y l1].
  - simpl. by destruct l2.
  - specialize (IH ltac:(done)).
    replace (String.concat sep ((x :: y :: l1) ++ l2))
      with (x ++ sep ++ String.concat sep ((y :: l1) ++ l2))%string by reflexivity.
    rewrite IH.
    replace (String.concat sep (x :: y :: l1))
      with (x ++ sep ++ String.concat sep (y :: l1))%string by reflexivity.
    by rewrite !str_app_assoc.
Qed.

Lemma str_concat_flatten sep (ls : list (list string)) :
  Forall (λ l, l ≠ []) ls →
  String.concat sep (map (String.concat sep) ls) = String.concat sep (concat ls).
Proof.
  induction 1 as [| l ls Hl Hls IH]; [done |].
  destruct ls as [| l' ls].
  - simpl. by rewrite app_nil_r.
  - change (concat (l :: l' :: ls)) with (l ++ concat (l' :: ls)).
    rewrite str_concat_app; [| done |].
    + rewrite <- IH. reflexivity.
    + apply Forall_cons in Hls as [Hl' _]. simpl. by destruct l'.
Qed.

Lemma leaves_nonempty i : leaves i ≠ [].
Proof.
  induction i as [i IH] using SVInterval_sub_ind.
  destruct i as [c s e n t len inf src g w subs p v vi cp ce nat_]. simpl in *.
  destruct subs as [| c0 subs]; [done |].
  apply Forall_cons in IH as [Hc0 _]. simpl. by destruct (leaves c0).
Qed.

Section Rendering.

Variable list_of_set : gset string → list string.

(** X23.  The rendering of an interval is the comma-separated list of
    the renderings of the leaves below it, in order: nesting leaves no
    mark in the string. *)
Theorem str_flattens (self : SVInterval) :
  __str__ list_of_set self
  = String.concat "," (map (leaf_str list_of_set) (leaves self)).
Proof.
  induction self as [i IH] using SVInterval_sub_ind.
  destruct i as [c s e n t len inf src g w subs p v vi cp ce nat_].
  cbn [sub_intervals] in IH.
  destruct subs as [| c0 subs]; [done |].
  cbn [__str__ leaves sub_intervals].
  set (l := c0 :: subs) in *.
  rewrite concat_map, map_map, <- str_concat_flatten.
  - rewrite map_map. f_equal. apply map_ext_Forall.
    eapply Forall_impl; [exact IH |]. by intros a ->.
  - apply Forall_forall. intros x [k [-> _]]%elem_of_map.
    pose proof (leaves_nonempty k). by destruct (leaves k).
Qed.

End Rendering.

(** ** Export *)

(** [a] does not come after [b] among strings. *)
Lemma str_precedes_total a b : str_ltb b a = false ∨ str_ltb a b = false.
Proof.
  destruct (str_ltb b a) eqn:Hba; [| by left]. right.
  apply str_ltb_lt in Hba. apply not_true_iff_false. intros Hab%str_ltb_lt.
  eapply str_lt_irrefl, str_lt_trans; eauto.
Qed.

Lemma str_precedes_trans a b c :
  str_ltb b a = false → str_ltb c b = false → str_ltb c a = false.
Proof.
  intros Hab Hbc. apply not_true_iff_false. intros Hca%str_ltb_lt.
  destruct (str_lt_total a b) as [H | [-> | H]].
  - assert (String_as_OT.lt c b) as Hcb by (by apply str_lt_trans with a).
    apply str_ltb_lt in Hcb. congruence.
  - apply str_ltb_lt in Hca. congruence.
  - apply str_ltb_lt in H. congruence.
Qed.

Lemma str_precedes_antisym a b :
  str_ltb b a = false → str_ltb a b = false → a = b.
Proof.
  intros Hab Hba. destruct (str_lt_total a b) as [H | [-> | H]]; [| done |].
  - apply str_ltb_lt in H. congruence.
  - apply str_ltb_lt in H. congruence.
Qed.

Lemma insert_str_perm x l : insert_str x l ≡ₚ x :: l.
Proof.
  induction l as [| y l IH]; simpl; [done |].
  destruct (str_ltb y x); [| done].
  rewrite IH. apply Permutation_swap.
Qed.

Lemma sorted_str_perm l : sorted_str l ≡ₚ l.
Proof.
  induction l as [| x l IH]; simpl; [done |].
  by rewrite insert_str_perm, IH.
Qed.

Lemma insert_str_sorted x l :
  StronglySorted (λ a b, str_ltb b a = false) l →
  StronglySorted (λ a b, str_ltb b a = false) (insert_str x l).
Proof.
  induction 1 as [| y l Hl IH Hy]; simpl.
  - repeat constructor.
  - destruct (str_ltb y x) eqn:Hlt.
    + constructor; [done |].
      rewrite insert_str_perm. constructor; [| done].
      destruct (str_precedes_total y x); [done | congruence].
    + constructor; [by constructor |].
      constructor; [done |].
      eapply Forall_impl; [exact Hy |]. intros z Hz.
      by apply str_precedes_trans with y.
Qed.

Lemma sorted_str_sorted l : StronglySorted (λ a b, str_ltb b a = false) (sorted_str l).
Proof.
  induction l as [| x l IH]; simpl; [constructor | by apply insert_str_sorted].
Qed.

(** Sorting strings forgets the arrangement of the list. *)
Lemma sorted_str_unique l1 l2 : l1 ≡ₚ l2 → sorted_str l1 = sorted_str l2.
Proof.
  intros Hp. apply (StronglySorted_unique_strong (λ a b, str_ltb b a = false)).
  - intros x y _ _. apply str_precedes_antisym.
  - apply sorted_str_sorted.
  - apply sorted_str_sorted.
  - by rewrite !sorted_str_perm.
Qed.

Lemma lookup_types_spec tools :
  (Forall (λ t, is_Some (sv_sources_to_type !! t)) tools
   ∧ lookup_types tools
     = Ok (map (λ t, default EmptyString (sv_sources_to_type !! t)) tools))
  ∨ (Exists (λ t, sv_sources_to_type !! t = None) tools
     ∧ lookup_types tools = Raise KeyError).
Proof.
  induction tools as [| t tools IH]; cbn [lookup_types]; [left; by split |].
  destruct (sv_sources_to_type !! t) as [ty |] eqn:Ht.
  - destruct IH as [[Hall ->] | [Hex ->]].
    + left. split; [constructor; [eauto | done] |].
      cbn [mbind result_bind map]. by rewrite Ht.
    + right. split; [by right | done].
  - right. split; [by left | done].
Qed.

Section ExportFacts.

Variable list_of_set : gset string → list string.
Hypothesis list_of_set_spec : ∀ (s : gset string) (x : string),
  x ∈ list_of_set s ↔ x ∈ s.

(** X24.  [to_bed_interval] does not depend on the order in which the
    set of sources is enumerated: two enumerations that list the same
    tools equally often give the same interval, the same [None] or the
    same exception. *)
Theorem to_bed_interval_order_free (other_list_of_set : gset string → list string)
    (self : SVInterval) (sample_name : string) :
  (∀ s, list_of_set s ≡ₚ other_list_of_set s) →
  to_bed_interval list_of_set self sample_name
  = to_bed_interval other_list_of_set self sample_name.
Proof.
  intros Hperm. unfold to_bed_interval, source_types.
  destruct (start self <=? 0); [done |].
  destruct (negb (str_in (sv_type self) ["DEL"; "INS"; "INV"]%string)); [done |].
  specialize (Hperm (sources self)).
  destruct (lookup_types_spec (list_of_set (sources self))) as [[H1 ->] | [H1 ->]];
    destruct (lookup_types_spec (other_list_of_set (sources self)))
      as [[H2 ->] | [H2 ->]].
  - cbn [mbind result_bind]. do 3 f_equal.
    rewrite (sorted_str_unique _ (map (λ t, default EmptyString (sv_sources_to_type !! t))
                                      (other_list_of_set (sources self)))); [done |].
    by apply Permutation_map.
  - exfalso. rewrite Hperm in H1. rewrite Forall_forall in H1.
    apply Exists_exists in H2 as (t & Ht & Hnone).
    destruct (H1 t Ht) as [? ?]. congruence.
  - exfalso. rewrite <- Hperm in H2. rewrite Forall_forall in H2.
    apply Exists_exists in H1 as (t & Ht & Hnone).
    destruct (H2 t Ht) as [? ?]. congruence.
  - done.
Qed.

(** X25.  [to_bed_interval] returns [None] exactly when [start <= 0] or
    [sv_type] is none of DEL, INS, INV.  Otherwise it raises [KeyError]
    when some source has no entry in [sv_sources_to_type], and else
    returns an interval from [start] to [end], one base further for an
    insertion, whose score is the number of sources. *)
Theorem to_bed_interval_cases (self : SVInterval) (sample_name : string) :
  (to_bed_interval list_of_set self sample_name = Ok None
   ↔ start self ≤ 0 ∨ str_in (sv_type self) ["DEL"; "INS"; "INV"]%string = false)
  ∧ (0 < start self → str_in (sv_type self) ["DEL"; "INS"; "INV"]%string = true →
     (∃ x, x ∈ sources self ∧ sv_sources_to_type !! x = None) →
     to_bed_interval list_of_set self sample_name = Raise KeyError)
  ∧ (∀ b, to_bed_interval list_of_set self sample_name = Ok (Some b) →
          (∀ x, x ∈ sources self → is_Some (sv_sources_to_type !! x))
          ∧ bed_chrom b = chrom self ∧ bed_start b = start self
          ∧ bed_end b = (if String.eqb (sv_type self) "INS" then end_ self + 1
                         else end_ self)
          ∧ bed_score b = format_d (Z.of_nat (size (sources self)))).
Proof.
  unfold to_bed_interval, source_types.
  destruct (Z.leb_spec (start self) 0) as [Hs | Hs].
  { split; [split; [by left | done] |]. split; [lia | done]. }
  destruct (str_in (sv_type self) ["DEL"; "INS"; "INV"]%string) eqn:Ht; cbn [negb].
  2: { split; [split; [by right | done] |]. split; [done | done]. }
  destruct (lookup_types_spec (list_of_set (sources self))) as [[H1 ->] | [H1 ->]];
    cbn [mbind result_bind].
  - split; [split; [done | intros [? | ?]; [lia | done]] |]. split.
    + intros _ _ (x & Hx & Hnone). exfalso.
      rewrite Forall_forall in H1. apply list_of_set_spec in Hx.
      destruct (H1 x Hx) as [? ?]. congruence.
    + intros b Hb. injection Hb as <-. cbn [bed_chrom bed_start bed_end bed_score].
      split.
      * intros x Hx. rewrite Forall_forall in H1. by apply H1, list_of_set_spec.
      * repeat split. by destruct (String.eqb (sv_type self) "INS").
  - split; [split; [done | intros [? | ?]; [lia | done]] |]. split; done.
Qed.

Lemma first_is_haplotypecaller_cases self :
  (∃ s, first_source list_of_set self = Ok s
        ∧ first_is_haplotypecaller list_of_set self
          = Ok (String.eqb s "HaplotypeCaller"))
  ∨ (sources self = ∅
     ∧ first_is_haplotypecaller list_of_set self = Raise IndexError).
Proof.
  unfold first_is_haplotypecaller, first_source.
  destruct (list_of_set (sources self)) as [| s l] eqn:Hl.
  - right. split; [| done]. apply set_eq. intros x.
    rewrite <- list_of_set_spec, Hl. set_solver.
  - left. by exists s.
Qed.

(** X26.  Every interval [to_svp_record] writes, [to_bed_interval]
    writes too.  An interval [to_bed_interval] writes is either written
    by [to_svp_record], or skipped because its first source is
    HaplotypeCaller and it has no children or a single source, or it
    is a childless interval without sources, on which [to_svp_record]
    raises [IndexError]. *)
Theorem svp_records_are_bed_intervals (self : SVInterval) (sample_name : string)
    (id_num : Z) :
  (∀ record, to_svp_record list_of_set self sample_name id_num = Ok (Some record) →
             ∃ b, to_bed_interval list_of_set self sample_name = Ok (Some b))
  ∧ (∀ b, to_bed_interval list_of_set self sample_name = Ok (Some b) →
          (∃ record, to_svp_record list_of_set self sample_name id_num
                     = Ok (Some record))
          ∨ (to_svp_record list_of_set self sample_name id_num = Ok None
             ∧ first_source list_of_set self = Ok "HaplotypeCaller"%string
             ∧ (sub_intervals self = [] ∨ size (sources self) = 1%nat))
          ∨ (to_svp_record list_of_set self sample_name id_num = Raise IndexError
             ∧ sub_intervals self = [] ∧ sources self = ∅)).
Proof.
  unfold to_svp_record, to_bed_interval.
  destruct (start self <=? 0); [split; [done | done] |].
  destruct (negb (str_in (sv_type self) ["DEL"; "INS"; "INV"]%string));
    [split; [done | done] |].
  destruct (source_types list_of_set self) as [types | e] eqn:Hty.
  2: { split; [| done]. intros record.
       destruct (sub_intervals self); destruct (size (sources self) =? 1)%nat;
         destruct (first_is_haplotypecaller list_of_set self) as [[|] | ?];
         cbn [mbind result_bind]; done. }
  cbn [mbind result_bind]. split; [eauto |]. intros b _.
  destruct (first_is_haplotypecaller_cases self) as [(s & Hs & Hhc) | [Hempty Hhc]];
    rewrite Hhc.
  - destruct (String.eqb_spec s "HaplotypeCaller") as [-> | Hne].
    + destruct (sub_intervals self) as [| c subs] eqn:Hsub; cbn [mbind result_bind].
      * right. left. split; [done |]. split; [done | by left].
      * destruct (Nat.eqb_spec (size (sources self)) 1) as [H1 | H1];
          cbn [mbind result_bind].
        -- right. left. split; [done |]. split; [done | by right].
        -- left. eauto.
    + left. destruct (sub_intervals self); destruct (size (sources self) =? 1)%nat;
        cbn [mbind result_bind]; eauto.
  - destruct (sub_intervals self) as [| c subs] eqn:Hsub; cbn [mbind result_bind].
    + right. right. done.
    + assert (size (sources self) = 0%nat) as -> by (rewrite Hempty; apply size_empty).
      cbn [Nat.eqb mbind result_bind]. left. eauto.
Qed.

(** X27.  Whatever the [info] of the interval and of its children holds,
    a record [to_vcf_record] returns has a positive position, the filter
    PASS exactly for a validated interval, and the INFO keys SVTYPE,
    SVLEN (negated for a deletion), NUM_SVMETHODS, SOURCES, VT and SVTOOL
    with the values computed from the interval; IMPRECISE is present for
    an interval that is not precise, and END is [end] for DEL and DUP. *)
Theorem to_vcf_record_computed_keys (self : SVInterval)
    (fasta_handle : option (string → Z → Z → string)) (sample : string)
    (r : vcf_record) :
  to_vcf_record list_of_set self fasta_handle sample = Ok (Some r) →
  0 < start self ∧ str_in (sv_type self) svs_of_interest = true
  ∧ vcf_chrom r = chrom self ∧ vcf_pos r = start self
  ∧ vcf_filter r = (if is_validated self then "PASS" else "LowQual")%string
  ∧ vcf_info r !! "SVTYPE"%string = Some (IStr (sv_type self))
  ∧ vcf_info r !! "SVLEN"%string
    = Some (IInt (if String.eqb (sv_type self) "DEL" then - length self
                  else length self))
  ∧ vcf_info r !! "NUM_SVMETHODS"%string
    = Some (IInt (Z.of_nat (size (sources self))))
  ∧ vcf_info r !! "SOURCES"%string = Some (IStr (__str__ list_of_set self))
  ∧ vcf_info r !! "VT"%string = Some (IStr "SV")
  ∧ vcf_info r !! "SVTOOL"%string = Some (IStr "MetaSVMerge")
  ∧ (is_precise self = false → vcf_info r !! "IMPRECISE"%string = Some INone)
  ∧ (sv_type self = "DEL"%string ∨ sv_type self = "DUP"%string →
     vcf_info r !! "END"%string = Some (IInt (end_ self))).
Proof.
  unfold to_vcf_record.
  destruct (Z.leb_spec (start self) 0) as [Hs | Hs]; [done |].
  destruct (str_in (sv_type self) svs_of_interest) eqn:Ht; cbn [negb]; [| done].
  destruct (if match sub_intervals self with [] => true | _ :: _ => false end
               || (size (sources self) =? 1)%nat
            then first_is_haplotypecaller list_of_set self
            else Ok false) as [[|] | ?]; cbn [mbind result_bind]; try done.
  destruct (inherited_info self) as [inherited | ?];
    cbn [mbind result_bind]; [| done].
  destruct (source_types list_of_set self) as [svmethods | ?];
    cbn [mbind result_bind]; [| done].
  intros Hr. injection Hr as <-.
  cbn [vcf_chrom vcf_pos vcf_filter vcf_info].
  do 5 (split; [done |]).
  assert (sv_type self = "DEL"%string ∨ sv_type self = "DUP"%string
          ↔ (sv_type self =? "DEL")%string || (sv_type self =? "DUP")%string = true)
    as Hend.
  { rewrite orb_true_iff, !String.eqb_eq. tauto. }
  destruct ((sv_type self =? "DEL")%string || (sv_type self =? "DUP")%string)
    eqn:Hdd;
    destruct (is_precise self) eqn:Hp; cbn [negb];
    destruct (cipos self) as [| cp0 cps];
    repeat split;
    try (intros Hfalse; discriminate Hfalse);
    try (intros Hor; apply Hend in Hor; discriminate Hor);
    intros;
    repeat (rewrite lookup_insert_ne by (intros Hd; discriminate Hd));
    rewrite lookup_insert_eq; reflexivity.
Qed.

(** X28.  A childless interval whose [info] is [None], as [__init__]
    leaves it by default, is never exported: [to_vcf_record] returns no
    record for it, and raises [TypeError] when the interval has a
    positive [start], an [sv_type] of interest and a first source other
    than HaplotypeCaller. *)
Theorem to_vcf_record_without_info (self : SVInterval)
    (fasta_handle : option (string → Z → Z → string)) (sample : string) :
  sub_intervals self = [] → info self = None →
  (∀ r, to_vcf_record list_of_set self fasta_handle sample ≠ Ok (Some r))
  ∧ (∀ s, 0 < start self → str_in (sv_type self) svs_of_interest = true →
          first_source list_of_set self = Ok s → s ≠ "HaplotypeCaller"%string →
          to_vcf_record list_of_set self fasta_handle sample = Raise TypeError).
Proof.
  intros Hsub Hinfo. unfold to_vcf_record, inherited_info.
  rewrite Hsub, Hinfo. cbn [orb].
  destruct (Z.leb_spec (start self) 0) as [Hs | Hs]; [split; [done | lia] |].
  destruct (str_in (sv_type self) svs_of_interest); cbn [negb]; [| done].
  unfold first_is_haplotypecaller.
  destruct (first_source list_of_set self) as [s0 | e]; cbn [mbind result_bind];
    [| done].
  destruct (String.eqb_spec s0 "HaplotypeCaller") as [-> | Hne].
  - split; [done |]. intros s _ _ Hs0 Hn. congruence.
  - done.
Qed.

End ExportFacts.

Lemma to_bed_interval_order_free_witness :
  to_bed_interval sorted_elements (two_tool_cluster "DEL") "sample"
  = to_bed_interval (λ s, rev (sorted_elements s)) (two_tool_cluster "DEL") "sample".
Proof.
  apply (to_bed_interval_order_free sorted_elements (λ s, rev (sorted_elements s))).
  intros s. apply Permutation_rev.
Defined.

Lemma to_bed_interval_cases_witness :
  to_bed_interval sorted_elements lumpy_cluster "sample" = Raise KeyError.
Proof.
  destruct (to_bed_interval_cases sorted_elements sorted_elements_spec lumpy_cluster
              "sample") as (_ & H & _).
  apply H.
  - reflexivity.
  - reflexivity.
  - exists "Lumpy"%string. split; [| vm_compute; reflexivity].
    apply (bool_decide_unpack _). vm_compute. reflexivity.
Defined.

Lemma svp_records_are_bed_intervals_witness :
  ∃ b, to_bed_interval sorted_elements (two_tool_cluster "DEL") "sample" = Ok (Some b).
Proof.
  destruct (svp_records_are_bed_intervals sorted_elements sorted_elements_spec
              (two_tool_cluster "DEL") "sample" 7) as [H _].
  destruct (to_svp_record sorted_elements (two_tool_cluster "DEL") "sample" 7)
    as [[record |] | e] eqn:Hsvp.
  - exact (H record eq_refl).
  - vm_compute in Hsvp. discriminate Hsvp.
  - vm_compute in Hsvp. discriminate Hsvp.
Defined.

Lemma to_vcf_record_computed_keys_witness :
  ∃ r, to_vcf_record sorted_elements (two_tool_cluster "DEL") None "sample" = Ok (Some r)
       ∧ vcf_filter r = "LowQual"%string
       ∧ vcf_info r !! "SVTYPE"%string = Some (IStr "DEL").
Proof.
  destruct (to_vcf_record sorted_elements (two_tool_cluster "DEL") None "sample")
    as [[r |] | e] eqn:Hvcf.
  - exists r. split; [reflexivity |].
    destruct (to_vcf_record_computed_keys sorted_elements (two_tool_cluster "DEL") None
                "sample" r Hvcf) as (_ & _ & _ & _ & Hf & Ht & _).
    split; [exact Hf | exact Ht].
  - vm_compute in Hvcf. discriminate Hvcf.
  - vm_compute in Hvcf. discriminate Hvcf.
Defined.

Lemma to_vcf_record_without_info_witness :
  to_vcf_record sorted_elements pindel_call None "sample" = Raise TypeError.
Proof.
  destruct (to_vcf_record_without_info sorted_elements pindel_call None "sample"
              eq_refl eq_refl) as [_ H].
  apply (H "Pindel"%string).
  - simpl. lia.
  - reflexivity.
  - vm_compute. reflexivity.
  - discriminate.
Defined.
